(** * Internal key format of the multi-version LevelDB fork (db/dbformat.h)

    A shallow embedding of the key codec, the owning key types, the
    internal key comparator, the filter-policy adapter and the lookup
    keys, together with the properties the specification states about
    them.

    Conventions.
    - [uint64_t] and [size_t] values are [Z]; wrap-around is written
      out with [wrap64].
    - A [Slice] (pointer + length) is the list of the bytes it views.
    - A C++ function writing through an out-pointer takes the previous
      value of the pointee and returns the new one next to its result.
    - A failed [assert], or a [size_t] subtraction that wraps before it
      is used as a length, is [None] in the [option] monad. *)

From Stdlib Require Import ZArith List Lia Bool.
From Stdlib Require String.
Import String.StringSyntax.
From Stdlib.Strings Require Import Byte.
Import ListNotations.
Local Open Scope Z_scope.

(* ================================================================== *)
(** * Basic types *)

Definition Slice := list byte.

Definition size (s : Slice) : Z := Z.of_nat (length s).

(** [Slice(p + off, n)] for a pointer [p] into the buffer [buf]. *)
Definition slice_at (buf : list byte) (off n : Z) : Slice :=
  firstn (Z.to_nat n) (skipn (Z.to_nat off) buf).

Definition wrap64 (x : Z) : Z := x mod 2 ^ 64.

(** A small error monad for precondition failures. *)
Definition bind {A B : Type} (m : option A) (k : A -> option B) : option B :=
  match m with
  | Some a => k a
  | None => None
  end.

Notation "x <- m ;; k" := (bind m (fun x => k))
  (at level 61, m at next level, right associativity).

Fixpoint mapM {A B : Type} (f : A -> option B) (l : list A) : option (list B) :=
  match l with
  | [] => Some []
  | a :: l' => b <- f a ;; bs <- mapM f l' ;; Some (b :: bs)
  end.

(* ================================================================== *)
(** * util/coding.h *)

Module coding.

Definition byte_to_Z (b : byte) : Z := Z.of_N (Byte.to_N b).

(** [static_cast<uint8_t>(z)]: keeps the low eight bits. *)
Definition byte_of_Z (z : Z) : byte :=
  match Byte.of_N (Z.to_N (z mod 256)) with
  | Some b => b
  | None => x00
  end.

(** Modelled from the spec: the fixed-width integer coding of
    util/coding.h (EncodeFixed64, DecodeFixed64, PutFixed64) is not among
    the sources.  The specification fixes it as the 8-byte little-endian
    integer: byte [i] holds bits [8i .. 8i+7] of the value. *)
Fixpoint EncodeFixed (n : nat) (value : Z) : list byte :=
  match n with
  | O => []
  | S n' => byte_of_Z (Z.land value 255) :: EncodeFixed n' (Z.shiftr value 8)
  end.

(** Modelled from the spec: the decoder of the same little-endian coding
    (util/coding.h is not among the sources); it reads [n] bytes at
    [ptr]. *)
Fixpoint DecodeFixed (n : nat) (ptr : list byte) : Z :=
  match n with
  | O => 0
  | S n' =>
      match ptr with
      | [] => 0
      | b :: ptr' => Z.lor (byte_to_Z b) (Z.shiftl (DecodeFixed n' ptr') 8)
      end
  end.

(** Modelled from the spec: EncodeFixed64 of util/coding.h, the 8-byte
    little-endian integer. *)
Definition EncodeFixed64 (value : Z) : list byte := EncodeFixed 8 value.

(** Modelled from the spec: DecodeFixed64 of util/coding.h, reading the 8
    bytes at [ptr]. *)
Definition DecodeFixed64 (ptr : list byte) : Z := DecodeFixed 8 ptr.

(** Modelled from the spec: PutFixed64 of util/coding.h appends the
    8-byte integer to [dst]. *)
Definition PutFixed64 (dst : list byte) (value : Z) : list byte :=
  dst ++ EncodeFixed64 value.

(** Modelled from the spec: EncodeVarint32 of util/coding.h is not among
    the sources.  The specification calls for the varint32 coding of a
    length: seven payload bits per byte, least significant group first,
    the top bit of a byte set when another byte follows. *)
Definition EncodeVarint32 (v : Z) : list byte :=
  let B := 128 in
  if v <? 2 ^ 7 then
    [byte_of_Z v]
  else if v <? 2 ^ 14 then
    [byte_of_Z (Z.lor v B); byte_of_Z (Z.shiftr v 7)]
  else if v <? 2 ^ 21 then
    [byte_of_Z (Z.lor v B); byte_of_Z (Z.lor (Z.shiftr v 7) B);
     byte_of_Z (Z.shiftr v 14)]
  else if v <? 2 ^ 28 then
    [byte_of_Z (Z.lor v B); byte_of_Z (Z.lor (Z.shiftr v 7) B);
     byte_of_Z (Z.lor (Z.shiftr v 14) B); byte_of_Z (Z.shiftr v 21)]
  else
    [byte_of_Z (Z.lor v B); byte_of_Z (Z.lor (Z.shiftr v 7) B);
     byte_of_Z (Z.lor (Z.shiftr v 14) B); byte_of_Z (Z.lor (Z.shiftr v 21) B);
     byte_of_Z (Z.shiftr v 28)].

End coding.

(* ================================================================== *)
(** * Configuration constants *)

Module config.

Definition kNumLevels : Z := 3.

(** Level-0 compaction is started when we hit this many files. *)
Definition kL0_CompactionTrigger : Z := 400.

(** Soft limit on number of level-0 files. *)
Definition kL0_SlowdownWritesTrigger : Z := 800.

(** Maximum number of level-0 files. *)
Definition kL0_StopWritesTrigger : Z := 1200.

Definition kMaxMemCompactLevel : Z := 2.

Definition kReadBytesPeriod : Z := 1048576.

End config.

(* ================================================================== *)
(** * Value types, sequence numbers, valid times *)

(** [enum ValueType].  Parsing stores any decoded byte in a field of this
    type ([static_cast<ValueType>(c)]), so the embedding keeps the
    underlying integer and names the two enumerators. *)
Definition ValueType := Z.
Definition kTypeDeletion : ValueType := 0.
Definition kTypeValue : ValueType := 1.
Definition kValueTypeForSeek : ValueType := kTypeValue.

(** The values the enumeration declares. *)
Definition IsValueType (t : ValueType) : Prop :=
  t = kTypeDeletion \/ t = kTypeValue.

Definition SequenceNumber := Z.
Definition kMaxSequenceNumber : SequenceNumber := Z.shiftl 1 56 - 1.

Definition ValidTime := Z.
Definition UINT64_MAX : Z := 2 ^ 64 - 1.
Definition kMaxValidTime : ValidTime := UINT64_MAX.
Definition kMinValidTime : ValidTime := 0.

(* ================================================================== *)
(** * Parsed keys *)

Record ParsedInternalKey : Type := mkParsedInternalKey {
  user_key : Slice;
  sequence : SequenceNumber;
  type : ValueType
}.

Record ParsedMVInternalKey : Type := mkParsedMVInternalKey {
  mv_user_key : Slice;
  mv_sequence : SequenceNumber;
  mv_type : ValueType;
  valid_time : ValidTime  (* start valid time *)
}.

(** Assignments to single fields, [result->f = v]. *)
Definition set_sequence (v : SequenceNumber) (r : ParsedInternalKey) :=
  mkParsedInternalKey (user_key r) v (type r).
Definition set_type (v : ValueType) (r : ParsedInternalKey) :=
  mkParsedInternalKey (user_key r) (sequence r) v.
Definition set_user_key (v : Slice) (r : ParsedInternalKey) :=
  mkParsedInternalKey v (sequence r) (type r).

Definition set_mv_sequence (v : SequenceNumber) (r : ParsedMVInternalKey) :=
  mkParsedMVInternalKey (mv_user_key r) v (mv_type r) (valid_time r).
Definition set_mv_type (v : ValueType) (r : ParsedMVInternalKey) :=
  mkParsedMVInternalKey (mv_user_key r) (mv_sequence r) v (valid_time r).
Definition set_mv_user_key (v : Slice) (r : ParsedMVInternalKey) :=
  mkParsedMVInternalKey v (mv_sequence r) (mv_type r) (valid_time r).
Definition set_valid_time (v : ValidTime) (r : ParsedMVInternalKey) :=
  mkParsedMVInternalKey (mv_user_key r) (mv_sequence r) (mv_type r) v.

Definition InternalKeyEncodingLength (key : ParsedInternalKey) : Z :=
  size (user_key key) + 8.

Definition MVInternalKeyEncodingLength (key : ParsedMVInternalKey) : Z :=
  size (mv_user_key key) + 16.

(* ================================================================== *)
(** * Key codec *)

(** Modelled from the spec: the tag packing used by the encoders lives in
    db/dbformat.cc, which is not among the sources.  The specification
    gives the tag as [(sequence << 8) | type], a 64-bit integer. *)
Definition PackSequenceAndType (seq : SequenceNumber) (t : ValueType) : Z :=
  wrap64 (Z.lor (Z.shiftl seq 8) t).

(** Modelled from the spec: AppendInternalKey is declared in the header
    and defined in db/dbformat.cc, which is not among the sources.  The
    specification: append the user key, then the 8-byte tag; existing
    content of the output buffer is kept. *)
Definition AppendInternalKey (result : list byte) (key : ParsedInternalKey)
  : list byte :=
  coding.PutFixed64 (result ++ user_key key)
    (PackSequenceAndType (sequence key) (type key)).

(** Modelled from the spec: AppendMVInternalKey is declared in the header
    and defined in db/dbformat.cc, which is not among the sources.  The
    specification: append the user key, the 8-byte tag, then the 8-byte
    valid time. *)
Definition AppendMVInternalKey (result : list byte) (key : ParsedMVInternalKey)
  : list byte :=
  coding.PutFixed64
    (coding.PutFixed64 (result ++ mv_user_key key)
       (PackSequenceAndType (mv_sequence key) (mv_type key)))
    (valid_time key).

Definition ParseInternalKey (internal_key : Slice) (result : ParsedInternalKey)
  : bool * ParsedInternalKey :=
  let n := size internal_key in
  if n <? 8 then (false, result)
  else
    let num := coding.DecodeFixed64 (slice_at internal_key (n - 8) 8) in
    let c := Z.land num 255 in
    let result := set_sequence (Z.shiftr num 8) result in
    let result := set_type c result in
    let result := set_user_key (slice_at internal_key 0 (n - 8)) result in
    (c <=? kTypeValue, result).

Definition ParseMVInternalKey (mv_internal_key : Slice)
  (result : ParsedMVInternalKey) : bool * ParsedMVInternalKey :=
  let n := size mv_internal_key in
  if n <? 16 then (false, result)
  else
    let num := coding.DecodeFixed64 (slice_at mv_internal_key (n - 16) 8) in
    let c := Z.land num 255 in
    let result := set_mv_sequence (Z.shiftr num 8) result in
    let result := set_mv_type c result in
    let result := set_mv_user_key (slice_at mv_internal_key 0 (n - 16)) result in
    let result :=
      set_valid_time (coding.DecodeFixed64 (slice_at mv_internal_key (n - 8) 8))
        result in
    (c <=? kTypeValue, result).

(** Returns the user key portion of an internal key; the [assert] on the
    length is the [None] case. *)
Definition ExtractUserKey (internal_key : Slice) : option Slice :=
  if 8 <=? size internal_key
  then Some (slice_at internal_key 0 (size internal_key - 8))
  else None.

Definition MVExtractUserKey (mv_internal_key : Slice) : option Slice :=
  if 16 <=? size mv_internal_key
  then Some (slice_at mv_internal_key 0 (size mv_internal_key - 16))
  else None.

(* ================================================================== *)
(** * Owning key types *)

(** [std::string::assign(const char* s, size_t count)] applied to the
    data pointer of a slice.  A count beyond the bytes the slice views
    (as a wrapped [size_t] difference always is: it also exceeds
    [max_size()], and the call throws) yields no buffer. *)
Definition string_assign (data : Slice) (count : Z) : option (list byte) :=
  if count <=? size data then Some (slice_at data 0 count) else None.

(** [std::string::empty]. *)
Definition empty (s : list byte) : bool :=
  match s with
  | [] => true
  | _ :: _ => false
  end.

Module InternalKey.

Record t : Type := mk { rep_ : list byte }.

(** [InternalKey()]: leaves [rep_] empty to indicate it is invalid. *)
Definition new : t := mk [].

(** [InternalKey(user_key, s, t)]. *)
Definition make (user_key : Slice) (s : SequenceNumber) (ty : ValueType) : t :=
  mk (AppendInternalKey [] (mkParsedInternalKey user_key s ty)).

Definition DecodeFrom (self : t) (s : Slice) : option (bool * t) :=
  rep <- string_assign s (size s) ;;
  Some (negb (empty rep), mk rep).

(** Decode from MVInternalKey string. *)
Definition DecodeFromMV (self : t) (s : Slice) : option (bool * t) :=
  rep <- string_assign s (wrap64 (size s - 8)) ;;
  Some (negb (empty rep), mk rep).

Definition Encode (self : t) : option Slice :=
  if empty (rep_ self) then None else Some (rep_ self).

Definition user_key (self : t) : option Slice := ExtractUserKey (rep_ self).

Definition SetFrom (self : t) (p : ParsedInternalKey) : t :=
  let rep := [] in
  mk (AppendInternalKey rep p).

Definition Clear (self : t) : t := mk [].

End InternalKey.

Module MVInternalKey.

Record t : Type := mk { rep_ : list byte }.

Definition new : t := mk [].

Definition make (user_key : Slice) (s : SequenceNumber) (ty : ValueType)
  (vt : ValidTime) : t :=
  mk (AppendMVInternalKey [] (mkParsedMVInternalKey user_key s ty vt)).

Definition DecodeFrom (self : t) (s : Slice) : option (bool * t) :=
  rep <- string_assign s (size s) ;;
  Some (negb (empty rep), mk rep).

Definition Encode (self : t) : option Slice :=
  if empty (rep_ self) then None else Some (rep_ self).

Definition user_key (self : t) : option Slice := MVExtractUserKey (rep_ self).

Definition SetFrom (self : t) (p : ParsedMVInternalKey) : t :=
  let rep := [] in
  mk (AppendMVInternalKey rep p).

Definition Clear (self : t) : t := mk [].

End MVInternalKey.

(* ================================================================== *)
(** * Injected policies *)

(** The interface of a user comparator (leveldb/comparator.h), reduced to
    the three-way comparison. *)
Record Comparator : Type := mkComparator {
  Compare : Slice -> Slice -> Z
}.

(** The interface of a user filter policy (leveldb/filter_policy.h):
    [CreateFilter] appends to [dst] a filter for the given keys. *)
Record FilterPolicy : Type := mkFilterPolicy {
  CreateFilter : list Slice -> list byte -> list byte;
  KeyMayMatch : Slice -> Slice -> bool
}.

(* ================================================================== *)
(** * Internal key comparator *)

Module InternalKeyComparator.

(** Modelled from the spec: InternalKeyComparator::Compare on slices is
    declared in the header and defined in db/dbformat.cc, which is not
    among the sources.  The specification: strip the 8-byte suffix of
    both operands, compare the user keys with the injected comparator
    and return a nonzero result; on a tie compare the two 8-byte tags,
    the larger tag first.  The specification leaves the effect of the
    [multi_version] flag open; this is the comparison of a comparator
    built without it. *)
Definition Compare (user_comparator_ : Comparator) (akey bkey : Slice)
  : option Z :=
  ua <- ExtractUserKey akey ;;
  ub <- ExtractUserKey bkey ;;
  let r := Compare user_comparator_ ua ub in
  if r =? 0 then
    let anum := coding.DecodeFixed64 (slice_at akey (size akey - 8) 8) in
    let bnum := coding.DecodeFixed64 (slice_at bkey (size bkey - 8) 8) in
    if anum >? bnum then Some (-1)
    else if anum <? bnum then Some 1
    else Some r
  else Some r.

(** [Compare(const InternalKey&, const InternalKey&)]. *)
Definition CompareKeys (user_comparator_ : Comparator) (a b : InternalKey.t)
  : option Z :=
  ea <- InternalKey.Encode a ;;
  eb <- InternalKey.Encode b ;;
  Compare user_comparator_ ea eb.

End InternalKeyComparator.

(* ================================================================== *)
(** * Filter policy adapter *)

Module InternalFilterPolicy.

(** Modelled from the spec: the two methods of InternalFilterPolicy are
    declared in the header and defined in db/dbformat.cc, which is not
    among the sources.  The specification: the wrapped policy always
    receives [ExtractUserKey(internal_key)], never the raw internal
    key. *)
Definition CreateFilter (user_policy_ : FilterPolicy) (keys : list Slice)
  (dst : list byte) : option (list byte) :=
  mkeys <- mapM ExtractUserKey keys ;;
  Some (CreateFilter user_policy_ mkeys dst).

(** Modelled from the spec: KeyMayMatch of the adapter (db/dbformat.cc is
    not among the sources) hands [ExtractUserKey(key)] and the filter to
    the wrapped policy. *)
Definition KeyMayMatch (user_policy_ : FilterPolicy) (key f : Slice)
  : option bool :=
  ukey <- ExtractUserKey key ;;
  Some (KeyMayMatch user_policy_ ukey f).

End InternalFilterPolicy.

(* ================================================================== *)
(** * Lookup keys *)

(** Where the bytes of a lookup key live: the inline array [space_] or a
    buffer from [new]. *)
Inductive Storage : Type := Inline | Heap.

Module LookupKey.

(** [buf] holds the bytes written at [start_]; the three pointers are
    offsets into it. *)
Record t : Type := mk {
  buf : list byte;
  storage : Storage;
  start_ : Z;
  kstart_ : Z;
  end_ : Z
}.

(** Modelled from the spec: the constructor is declared in the header and
    defined in db/dbformat.cc, which is not among the sources.  The
    specification: varint32 of the internal key length, the user key, the
    8-byte tag (with the type used for seeks), written to the inline
    storage when the total fits.  [mem] is what the storage written to
    (the member array [space_], or the array allocated) holds beforehand:
    nothing initialises it, and the bytes past [end_] keep that
    content. *)
Definition make (mem : list byte) (user_key : Slice) (s : SequenceNumber) : t :=
  let usize := size user_key in
  let needed := usize + 13 in
  let st := if needed <=? 200 then Inline else Heap in
  let dst := coding.EncodeVarint32 (usize + 8) in
  let kstart := size dst in
  let dst := dst ++ user_key in
  let dst := dst ++ coding.EncodeFixed64 (PackSequenceAndType s kValueTypeForSeek) in
  mk (dst ++ skipn (length dst) mem) st 0 kstart (size dst).

(** Return a key suitable for lookup in a MemTable. *)
Definition memtable_key (self : t) : Slice :=
  slice_at (buf self) (start_ self) (end_ self - start_ self).

(** Return an internal key. *)
Definition internal_key (self : t) : Slice :=
  slice_at (buf self) (kstart_ self) (end_ self - kstart_ self).

(** Return the user key. *)
Definition user_key (self : t) : Slice :=
  slice_at (buf self) (kstart_ self) (end_ self - kstart_ self - 8).

End LookupKey.

Module MVLookupKey.

Record t : Type := mk {
  buf : list byte;
  storage : Storage;
  start_ : Z;
  kstart_ : Z;
  end_ : Z
}.

(** Modelled from the spec: the constructor is declared in the header and
    defined in db/dbformat.cc, which is not among the sources.  The
    specification: varint32 of the multi-version internal key length, the
    user key, the 8-byte tag, the 8-byte valid time.  [mem] is what the
    storage written to holds beforehand; the bytes past [end_] keep that
    content. *)
Definition make (mem : list byte) (user_key : Slice) (s : SequenceNumber)
  (vt : ValidTime) : t :=
  let usize := size user_key in
  let needed := usize + 21 in
  let st := if needed <=? 200 then Inline else Heap in
  let dst := coding.EncodeVarint32 (usize + 16) in
  let kstart := size dst in
  let dst := dst ++ user_key in
  let dst := dst ++ coding.EncodeFixed64 (PackSequenceAndType s kValueTypeForSeek) in
  let dst := dst ++ coding.EncodeFixed64 vt in
  mk (dst ++ skipn (length dst) mem) st 0 kstart (size dst).

Definition memtable_key (self : t) : Slice :=
  slice_at (buf self) (start_ self) (end_ self - start_ self).

Definition internal_key (self : t) : Slice :=
  slice_at (buf self) (kstart_ self) (end_ self - kstart_ self).

(** 16 = sizeof (seq + tag + ValidTime). *)
Definition user_key (self : t) : Slice :=
  slice_at (buf self) (kstart_ self) (end_ self - kstart_ self - 16).

(** Return the valid time field. *)
Definition valid_time (self : t) : ValidTime :=
  coding.DecodeFixed64 (slice_at (buf self) (end_ self - 8) 8).

End MVLookupKey.

(* ================================================================== *)
(** * Observations on encoded keys *)

(** The tag of an internal key: the fixed64 in its last 8 bytes. *)
Definition tag_of (internal_key : Slice) : Z :=
  coding.DecodeFixed64 (slice_at internal_key (size internal_key - 8) 8).

(** The tag of a multi-version internal key: the fixed64 that ends 8
    bytes before the end. *)
Definition mv_tag_of (mv_internal_key : Slice) : Z :=
  coding.DecodeFixed64 (slice_at mv_internal_key (size mv_internal_key - 16) 8).

(** The valid time field of a multi-version internal key. *)
Definition mv_valid_time_of (mv_internal_key : Slice) : Z :=
  coding.DecodeFixed64 (slice_at mv_internal_key (size mv_internal_key - 8) 8).

(** A well-formed encoded key is one the parser accepts. *)
Definition WellFormed (b : Slice) : bool :=
  fst (ParseInternalKey b (mkParsedInternalKey [] 0 kTypeDeletion)).

Definition MVWellFormed (b : Slice) : bool :=
  fst (ParseMVInternalKey b (mkParsedMVInternalKey [] 0 kTypeDeletion 0)).

(* ================================================================== *)
(** * Operation sequences on the owning key types *)

Module InternalKeyOps.

Inductive Op : Type :=
| OpNew                                  (* InternalKey() *)
| OpMake (p : ParsedInternalKey)         (* InternalKey(user_key, s, t) *)
| OpDecodeFrom (s : Slice)
| OpDecodeFromMV (s : Slice)
| OpSetFrom (p : ParsedInternalKey)
| OpClear.

Definition step (k : InternalKey.t) (o : Op) : option InternalKey.t :=
  match o with
  | OpNew => Some InternalKey.new
  | OpMake p => Some (InternalKey.make (user_key p) (sequence p) (type p))
  | OpDecodeFrom s => r <- InternalKey.DecodeFrom k s ;; Some (snd r)
  | OpDecodeFromMV s => r <- InternalKey.DecodeFromMV k s ;; Some (snd r)
  | OpSetFrom p => Some (InternalKey.SetFrom k p)
  | OpClear => Some (InternalKey.Clear k)
  end.

Fixpoint run (k : InternalKey.t) (ops : list Op) : option InternalKey.t :=
  match ops with
  | [] => Some k
  | o :: ops' => k' <- step k o ;; run k' ops'
  end.

(** The invariant the specification states for the owned buffer. *)
Definition Invariant (k : InternalKey.t) : Prop :=
  InternalKey.rep_ k = [] \/
  (WellFormed (InternalKey.rep_ k) = true /\ 8 <= size (InternalKey.rep_ k)).

(** Operations whose operands are what the codec produces or accepts:
    parsed keys carry a declared value type, decoded bytes are empty or a
    well-formed encoded key (for [DecodeFromMV]: once the last 8 bytes
    are dropped). *)
Definition Checked (o : Op) : Prop :=
  match o with
  | OpNew | OpClear => True
  | OpMake p | OpSetFrom p => IsValueType (type p)
  | OpDecodeFrom s => s = [] \/ WellFormed s = true
  | OpDecodeFromMV s =>
      8 <= size s < 2 ^ 64 /\
      (size s = 8 \/ WellFormed (slice_at s 0 (size s - 8)) = true)
  end.

End InternalKeyOps.

Module MVInternalKeyOps.

Inductive Op : Type :=
| OpNew
| OpMake (p : ParsedMVInternalKey)
| OpDecodeFrom (s : Slice)
| OpSetFrom (p : ParsedMVInternalKey)
| OpClear.

Definition step (k : MVInternalKey.t) (o : Op) : option MVInternalKey.t :=
  match o with
  | OpNew => Some MVInternalKey.new
  | OpMake p =>
      Some (MVInternalKey.make (mv_user_key p) (mv_sequence p) (mv_type p)
              (valid_time p))
  | OpDecodeFrom s => r <- MVInternalKey.DecodeFrom k s ;; Some (snd r)
  | OpSetFrom p => Some (MVInternalKey.SetFrom k p)
  | OpClear => Some (MVInternalKey.Clear k)
  end.

Fixpoint run (k : MVInternalKey.t) (ops : list Op) : option MVInternalKey.t :=
  match ops with
  | [] => Some k
  | o :: ops' => k' <- step k o ;; run k' ops'
  end.

Definition Invariant (k : MVInternalKey.t) : Prop :=
  MVInternalKey.rep_ k = [] \/
  (MVWellFormed (MVInternalKey.rep_ k) = true /\ 16 <= size (MVInternalKey.rep_ k)).

Definition Checked (o : Op) : Prop :=
  match o with
  | OpNew | OpClear => True
  | OpMake p | OpSetFrom p => IsValueType (mv_type p)
  | OpDecodeFrom s => s = [] \/ MVWellFormed s = true
  end.

End MVInternalKeyOps.

(* ================================================================== *)
(** * Sample policies

    A bytewise user comparator and an exact-match user filter, used to
    instantiate the statements below at concrete inputs. *)

Fixpoint bytewise_compare (a b : Slice) : Z :=
  match a, b with
  | [], [] => 0
  | [], _ :: _ => -1
  | _ :: _, [] => 1
  | x :: a', y :: b' =>
      if coding.byte_to_Z x <? coding.byte_to_Z y then -1
      else if coding.byte_to_Z y <? coding.byte_to_Z x then 1
      else bytewise_compare a' b'
  end.

Definition BytewiseComparator : Comparator := mkComparator bytewise_compare.


Definition bytes (s : String.string) : list byte := String.list_byte_of_string s.
Arguments bytes s%_string_scope.

(* ================================================================== *)
(** * Lemmas on slices *)

Lemma size_nonneg (s : Slice) : 0 <= size s.
Proof. unfold size. lia. Qed.

Lemma size_app (a b : list byte) : size (a ++ b) = size a + size b.
Proof. unfold size. rewrite length_app. lia. Qed.

Lemma size_of_length (s : Slice) : Z.to_nat (size s) = length s.
Proof. unfold size. lia. Qed.

Lemma slice_at_prefix (a b : list byte) : slice_at (a ++ b) 0 (size a) = a.
Proof.
  unfold slice_at. simpl. rewrite size_of_length.
  rewrite firstn_app, Nat.sub_diag, firstn_all. simpl. apply app_nil_r.
Qed.

Lemma slice_at_suffix (a b : list byte) :
  slice_at (a ++ b) (size a) (size b) = b.
Proof.
  unfold slice_at. rewrite !size_of_length.
  rewrite skipn_app, skipn_all, Nat.sub_diag. simpl. apply firstn_all.
Qed.

Lemma slice_at_middle (a b c : list byte) :
  slice_at (a ++ b ++ c) (size a) (size b) = b.
Proof.
  unfold slice_at. rewrite !size_of_length.
  rewrite skipn_app, skipn_all, Nat.sub_diag. simpl.
  rewrite firstn_app, Nat.sub_diag, firstn_all. simpl. apply app_nil_r.
Qed.

Lemma slice_at_prefix_eq (a b : list byte) (n : Z) :
  n = size a -> slice_at (a ++ b) 0 n = a.
Proof. intros ->. apply slice_at_prefix. Qed.

Lemma slice_at_suffix_eq (a b : list byte) (off n : Z) :
  off = size a -> n = size b -> slice_at (a ++ b) off n = b.
Proof. intros -> ->. apply slice_at_suffix. Qed.

Lemma slice_at_middle_eq (a b c : list byte) (off n : Z) :
  off = size a -> n = size b -> slice_at (a ++ b ++ c) off n = b.
Proof. intros -> ->. apply slice_at_middle. Qed.

Lemma slice_at_all (s : Slice) : slice_at s 0 (size s) = s.
Proof.
  unfold slice_at. simpl. rewrite size_of_length. apply firstn_all.
Qed.

Lemma empty_iff_size (s : list byte) : empty s = (size s =? 0).
Proof. destruct s; unfold size; simpl; [reflexivity | symmetry; lia]. Qed.

(* ================================================================== *)
(** * Lemmas on the fixed-width coding *)

Lemma byte_to_Z_range (b : byte) : 0 <= coding.byte_to_Z b < 256.
Proof.
  unfold coding.byte_to_Z. pose proof (Byte.to_N_bounded b). lia.
Qed.

Lemma byte_to_of_Z (z : Z) : coding.byte_to_Z (coding.byte_of_Z z) = z mod 256.
Proof.
  unfold coding.byte_to_Z, coding.byte_of_Z.
  assert (Hr : 0 <= z mod 256 < 256) by (apply Z.mod_pos_bound; lia).
  destruct (Byte.of_N (Z.to_N (z mod 256))) as [b|] eqn:E.
  - apply Byte.to_of_N in E. rewrite E. lia.
  - apply Byte.of_N_None_iff in E. lia.
Qed.

Lemma lor_shiftl_8 (a b : Z) :
  0 <= a < 256 -> Z.lor a (Z.shiftl b 8) = a + 256 * b.
Proof.
  intros Ha.
  assert (Hd : Z.land a (Z.shiftl b 8) = 0).
  { apply Z.bits_inj'. intros n Hn.
    rewrite Z.land_spec, Z.bits_0.
    destruct (Z.ltb_spec n 8) as [Hlt | Hge].
    - rewrite (Z.shiftl_spec_low b 8 n Hlt). apply andb_false_r.
    - replace (Z.testbit a n) with false; [reflexivity|].
      symmetry. destruct (Z.eq_dec a 0) as [-> | Hnz].
      + apply Z.bits_0.
      + apply Z.bits_above_log2; [lia|].
        assert (Z.log2 a < 8); [|lia].
        apply Z.log2_lt_pow2; [lia|]. change (2 ^ 8) with 256. lia. }
  rewrite <- (Z.lxor_lor _ _ Hd), <- (Z.add_nocarry_lxor _ _ Hd).
  rewrite Z.shiftl_mul_pow2 by lia. change (2 ^ 8) with 256. lia.
Qed.

Lemma length_EncodeFixed (n : nat) (v : Z) : length (coding.EncodeFixed n v) = n.
Proof.
  revert v. induction n as [|n IH]; intros v; simpl; [reflexivity|].
  now rewrite IH.
Qed.

Lemma size_EncodeFixed64 (v : Z) : size (coding.EncodeFixed64 v) = 8.
Proof. unfold size, coding.EncodeFixed64. now rewrite length_EncodeFixed. Qed.

Lemma DecodeFixed_range (n : nat) (p : list byte) :
  0 <= coding.DecodeFixed n p < 2 ^ (8 * Z.of_nat n).
Proof.
  revert p. induction n as [|n IH]; intros p.
  - simpl. lia.
  - replace (8 * Z.of_nat (S n)) with (8 + 8 * Z.of_nat n) by lia.
    rewrite Z.pow_add_r by lia. change (2 ^ 8) with 256.
    cbn [coding.DecodeFixed]. destruct p as [|b p'].
    + assert (0 < 2 ^ (8 * Z.of_nat n)) by (apply Z.pow_pos_nonneg; lia). lia.
    + specialize (IH p'). pose proof (byte_to_Z_range b).
      rewrite lor_shiftl_8 by assumption. nia.
Qed.

Lemma DecodeFixed64_range (p : list byte) : 0 <= coding.DecodeFixed64 p < 2 ^ 64.
Proof. exact (DecodeFixed_range 8 p). Qed.

Lemma DecodeFixed_EncodeFixed (n : nat) (v : Z) (rest : list byte) :
  coding.DecodeFixed n (coding.EncodeFixed n v ++ rest) = v mod 2 ^ (8 * Z.of_nat n).
Proof.
  revert v. induction n as [|n IH]; intros v.
  - simpl. now rewrite Z.mod_1_r.
  - replace (8 * Z.of_nat (S n)) with (8 + 8 * Z.of_nat n) by lia.
    rewrite Z.pow_add_r by lia. change (2 ^ 8) with 256.
    cbn [coding.DecodeFixed coding.EncodeFixed app]. rewrite IH, byte_to_of_Z.
    change 255 with (Z.ones 8). rewrite Z.land_ones by lia.
    change (2 ^ 8) with 256. rewrite Z.mod_mod by lia.
    rewrite lor_shiftl_8 by (apply Z.mod_pos_bound; lia).
    rewrite Z.shiftr_div_pow2 by lia. change (2 ^ 8) with 256.
    symmetry. apply Z.rem_mul_r; [lia|].
    apply Z.pow_pos_nonneg; lia.
Qed.

Lemma DecodeFixed64_EncodeFixed64 (v : Z) :
  0 <= v < 2 ^ 64 -> coding.DecodeFixed64 (coding.EncodeFixed64 v) = v.
Proof.
  intros Hv. unfold coding.DecodeFixed64, coding.EncodeFixed64.
  rewrite <- (app_nil_r (coding.EncodeFixed 8 v)), DecodeFixed_EncodeFixed.
  change (2 ^ (8 * Z.of_nat 8)) with (2 ^ 64). apply Z.mod_small. exact Hv.
Qed.

(* ================================================================== *)
(** * Lemmas on tags *)

Lemma kMaxSequenceNumber_eq : kMaxSequenceNumber = 2 ^ 56 - 1.
Proof. reflexivity. Qed.

Lemma lor_tag (seq t : Z) :
  0 <= t < 256 -> Z.lor (Z.shiftl seq 8) t = t + 256 * seq.
Proof. intros Ht. rewrite Z.lor_comm. now apply lor_shiftl_8. Qed.

Lemma Pack_range (seq t : Z) : 0 <= PackSequenceAndType seq t < 2 ^ 64.
Proof. unfold PackSequenceAndType, wrap64. apply Z.mod_pos_bound. lia. Qed.

Lemma Pack_small (seq t : Z) :
  0 <= seq <= kMaxSequenceNumber -> 0 <= t < 256 ->
  PackSequenceAndType seq t = t + 256 * seq.
Proof.
  rewrite kMaxSequenceNumber_eq. intros Hs Ht.
  unfold PackSequenceAndType, wrap64. rewrite lor_tag by assumption.
  apply Z.mod_small.
  change (2 ^ 64) with (256 * 2 ^ 56). lia.
Qed.

Lemma Pack_type_byte (seq t : Z) :
  0 <= t < 256 -> Z.land (PackSequenceAndType seq t) 255 = t.
Proof.
  intros Ht. unfold PackSequenceAndType, wrap64. rewrite lor_tag by assumption.
  change 255 with (Z.ones 8). rewrite Z.land_ones by lia.
  change (2 ^ 64) with (2 ^ 8 * 2 ^ 56).
  rewrite Z.rem_mul_r by lia. change (2 ^ 8) with 256.
  rewrite (Z.mul_comm 256 (_ mod _)), Z.mod_add by lia.
  rewrite Z.mod_mod by lia.
  rewrite (Z.mul_comm 256 seq), Z.mod_add by lia.
  apply Z.mod_small. exact Ht.
Qed.

Lemma Pack_sequence (seq t : Z) :
  0 <= seq <= kMaxSequenceNumber -> 0 <= t < 256 ->
  Z.shiftr (PackSequenceAndType seq t) 8 = seq.
Proof.
  intros Hs Ht. rewrite Pack_small by assumption.
  rewrite Z.shiftr_div_pow2 by lia. change (2 ^ 8) with 256.
  rewrite (Z.mul_comm 256 seq), Z.div_add by lia.
  rewrite Z.div_small by lia. lia.
Qed.

Lemma IsValueType_byte (t : ValueType) : IsValueType t -> 0 <= t < 256.
Proof. unfold IsValueType, kTypeDeletion, kTypeValue. lia. Qed.

Lemma IsValueType_le (t : ValueType) : IsValueType t -> (t <=? kTypeValue) = true.
Proof. unfold IsValueType, kTypeDeletion, kTypeValue. intros H. apply Z.leb_le. lia. Qed.

(* ================================================================== *)
(** * Lemmas on the parsers *)

Lemma ParseInternalKey_short (b : Slice) (r : ParsedInternalKey) :
  size b < 8 -> ParseInternalKey b r = (false, r).
Proof.
  intros H. unfold ParseInternalKey.
  destruct (Z.ltb_spec (size b) 8); [reflexivity | lia].
Qed.

Lemma ParseInternalKey_long (b : Slice) (r : ParsedInternalKey) :
  8 <= size b ->
  ParseInternalKey b r =
    (Z.land (tag_of b) 255 <=? kTypeValue,
     mkParsedInternalKey (slice_at b 0 (size b - 8)) (Z.shiftr (tag_of b) 8)
       (Z.land (tag_of b) 255)).
Proof.
  intros H. unfold ParseInternalKey.
  destruct (Z.ltb_spec (size b) 8); [lia | reflexivity].
Qed.

Lemma ParseMVInternalKey_short (b : Slice) (r : ParsedMVInternalKey) :
  size b < 16 -> ParseMVInternalKey b r = (false, r).
Proof.
  intros H. unfold ParseMVInternalKey.
  destruct (Z.ltb_spec (size b) 16); [reflexivity | lia].
Qed.

Lemma ParseMVInternalKey_long (b : Slice) (r : ParsedMVInternalKey) :
  16 <= size b ->
  ParseMVInternalKey b r =
    (Z.land (mv_tag_of b) 255 <=? kTypeValue,
     mkParsedMVInternalKey (slice_at b 0 (size b - 16))
       (Z.shiftr (mv_tag_of b) 8) (Z.land (mv_tag_of b) 255)
       (mv_valid_time_of b)).
Proof.
  intros H. unfold ParseMVInternalKey.
  destruct (Z.ltb_spec (size b) 16); [lia | reflexivity].
Qed.

(** The encoders, spelled out. *)
Lemma AppendInternalKey_eq (result : list byte) (p : ParsedInternalKey) :
  AppendInternalKey result p =
    result ++ user_key p ++
    coding.EncodeFixed64 (PackSequenceAndType (sequence p) (type p)).
Proof. unfold AppendInternalKey, coding.PutFixed64. now rewrite <- app_assoc. Qed.

Lemma AppendMVInternalKey_eq (result : list byte) (p : ParsedMVInternalKey) :
  AppendMVInternalKey result p =
    result ++ mv_user_key p ++
    coding.EncodeFixed64 (PackSequenceAndType (mv_sequence p) (mv_type p)) ++
    coding.EncodeFixed64 (valid_time p).
Proof.
  unfold AppendMVInternalKey, coding.PutFixed64. now rewrite <- !app_assoc.
Qed.

Lemma size_key (u : list byte) (v : Z) : size (u ++ coding.EncodeFixed64 v) = size u + 8.
Proof. now rewrite size_app, size_EncodeFixed64. Qed.

Lemma size_mv_key (u : list byte) (v w : Z) :
  size (u ++ coding.EncodeFixed64 v ++ coding.EncodeFixed64 w) = size u + 16.
Proof. rewrite !size_app, !size_EncodeFixed64. lia. Qed.

Lemma tag_of_key (u : list byte) (v : Z) :
  tag_of (u ++ coding.EncodeFixed64 v) = wrap64 v.
Proof.
  unfold tag_of.
  rewrite slice_at_suffix_eq
    by (rewrite ?size_key, ?size_EncodeFixed64; lia).
  unfold coding.DecodeFixed64, coding.EncodeFixed64.
  rewrite <- (app_nil_r (coding.EncodeFixed 8 v)). apply DecodeFixed_EncodeFixed.
Qed.

Lemma user_of_key (u : list byte) (v : Z) :
  slice_at (u ++ coding.EncodeFixed64 v) 0 (size (u ++ coding.EncodeFixed64 v) - 8) = u.
Proof.
  apply slice_at_prefix_eq. rewrite size_key. lia.
Qed.

Lemma mv_tag_of_key (u : list byte) (v w : Z) :
  mv_tag_of (u ++ coding.EncodeFixed64 v ++ coding.EncodeFixed64 w) = wrap64 v.
Proof.
  unfold mv_tag_of.
  rewrite slice_at_middle_eq
    by (rewrite ?size_mv_key, ?size_EncodeFixed64; lia).
  unfold coding.DecodeFixed64, coding.EncodeFixed64.
  rewrite <- (app_nil_r (coding.EncodeFixed 8 v)). apply DecodeFixed_EncodeFixed.
Qed.

Lemma mv_valid_time_of_key (u : list byte) (v w : Z) :
  mv_valid_time_of (u ++ coding.EncodeFixed64 v ++ coding.EncodeFixed64 w) = wrap64 w.
Proof.
  unfold mv_valid_time_of. rewrite size_mv_key, app_assoc.
  rewrite slice_at_suffix_eq
    by (rewrite ?size_key, ?size_EncodeFixed64; lia).
  unfold coding.DecodeFixed64, coding.EncodeFixed64.
  rewrite <- (app_nil_r (coding.EncodeFixed 8 w)). apply DecodeFixed_EncodeFixed.
Qed.

Lemma mv_user_of_key (u : list byte) (v w : Z) :
  slice_at (u ++ coding.EncodeFixed64 v ++ coding.EncodeFixed64 w) 0
    (size (u ++ coding.EncodeFixed64 v ++ coding.EncodeFixed64 w) - 16) = u.
Proof.
  apply slice_at_prefix_eq. rewrite size_mv_key. lia.
Qed.

Lemma wrap64_small (v : Z) : 0 <= v < 2 ^ 64 -> wrap64 v = v.
Proof. intros H. unfold wrap64. now apply Z.mod_small. Qed.

Lemma wrap64_Pack (seq t : Z) :
  wrap64 (PackSequenceAndType seq t) = PackSequenceAndType seq t.
Proof. apply wrap64_small, Pack_range. Qed.

(* ================================================================== *)
(** * The key codec *)

(** C2. Round trip: for every user key [u], every sequence [s] in
    [0, 2^56 - 1] and every type [t] in {0, 1}, parsing the encoding of
    the parsed key {u, s, t} succeeds and yields exactly {u, s, t},
    whatever the output held before; the same holds for the multi-version
    form {u, s, t, vt}, valid time included, for every 64-bit [vt]. *)
Theorem parse_encode_round_trip
  (u : Slice) (s : SequenceNumber) (t : ValueType) (vt : ValidTime)
  (r : ParsedInternalKey) (rmv : ParsedMVInternalKey)
  (Hs : 0 <= s <= 2 ^ 56 - 1) (Ht : t = 0 \/ t = 1) (Hvt : 0 <= vt < 2 ^ 64) :
  ParseInternalKey (AppendInternalKey [] (mkParsedInternalKey u s t)) r
    = (true, mkParsedInternalKey u s t)
  /\
  ParseMVInternalKey (AppendMVInternalKey [] (mkParsedMVInternalKey u s t vt)) rmv
    = (true, mkParsedMVInternalKey u s t vt).
Proof.
  assert (Hb : 0 <= t < 256) by lia.
  assert (Hs' : 0 <= s <= kMaxSequenceNumber) by (rewrite kMaxSequenceNumber_eq; lia).
  split.
  - rewrite AppendInternalKey_eq. cbn [app user_key sequence type].
    rewrite ParseInternalKey_long by (rewrite size_key; pose proof (size_nonneg u); lia).
    rewrite tag_of_key, user_of_key, wrap64_Pack.
    rewrite Pack_type_byte, Pack_sequence by assumption.
    replace (t <=? kTypeValue) with true; [reflexivity|].
    symmetry. apply Z.leb_le. unfold kTypeValue. lia.
  - rewrite AppendMVInternalKey_eq.
    cbn [app mv_user_key mv_sequence mv_type valid_time].
    rewrite ParseMVInternalKey_long
      by (rewrite size_mv_key; pose proof (size_nonneg u); lia).
    rewrite mv_tag_of_key, mv_user_of_key, mv_valid_time_of_key, wrap64_Pack.
    rewrite Pack_type_byte, Pack_sequence by assumption.
    rewrite (wrap64_small vt) by assumption.
    replace (t <=? kTypeValue) with true; [reflexivity|].
    symmetry. apply Z.leb_le. unfold kTypeValue. lia.
Qed.

Lemma parse_encode_round_trip_witness :
  ParseInternalKey
    (AppendInternalKey [] (mkParsedInternalKey (bytes "abc") 5 kTypeValue))
    (mkParsedInternalKey [] 0 0)
    = (true, mkParsedInternalKey (bytes "abc") 5 kTypeValue)
  /\
  ParseMVInternalKey
    (AppendMVInternalKey [] (mkParsedMVInternalKey (bytes "abc") 5 kTypeValue 42))
    (mkParsedMVInternalKey [] 0 0 0)
    = (true, mkParsedMVInternalKey (bytes "abc") 5 kTypeValue 42).
Proof.
  apply (parse_encode_round_trip (bytes "abc") 5 kTypeValue 42).
  - vm_compute. split; discriminate.
  - right. reflexivity.
  - vm_compute. split; [discriminate | reflexivity].
Defined.

(** C3. [ParseInternalKey] succeeds if and only if the input has at least
    8 bytes and the type byte of its trailing tag is at most 1;
    [ParseMVInternalKey] succeeds if and only if the input has at least
    16 bytes and the type byte of its tag is at most 1.  In particular a
    tag that carries type 2 is rejected, and so is an input shorter than
    the fixed suffix. *)
Theorem parse_succeeds_iff
  (b : Slice) (r : ParsedInternalKey) (rmv : ParsedMVInternalKey) :
  (fst (ParseInternalKey b r) = true
     <-> 8 <= size b /\ Z.land (tag_of b) 255 <= 1)
  /\
  (fst (ParseMVInternalKey b rmv) = true
     <-> 16 <= size b /\ Z.land (mv_tag_of b) 255 <= 1)
  /\
  (8 <= size b -> Z.land (tag_of b) 255 = 2 -> fst (ParseInternalKey b r) = false)
  /\
  (16 <= size b -> Z.land (mv_tag_of b) 255 = 2 ->
     fst (ParseMVInternalKey b rmv) = false)
  /\
  (size b < 8 -> fst (ParseInternalKey b r) = false)
  /\
  (size b < 16 -> fst (ParseMVInternalKey b rmv) = false).
Proof.
  split; [|split; [|split; [|split; [|split]]]].
  - destruct (Z.lt_ge_cases (size b) 8) as [Hlt | Hge].
    + rewrite ParseInternalKey_short by assumption. cbn [fst].
      split; [discriminate | lia].
    + rewrite ParseInternalKey_long by assumption. cbn [fst].
      unfold kTypeValue. rewrite Z.leb_le. tauto.
  - destruct (Z.lt_ge_cases (size b) 16) as [Hlt | Hge].
    + rewrite ParseMVInternalKey_short by assumption. cbn [fst].
      split; [discriminate | lia].
    + rewrite ParseMVInternalKey_long by assumption. cbn [fst].
      unfold kTypeValue. rewrite Z.leb_le. tauto.
  - intros Hge Hc. rewrite ParseInternalKey_long by assumption. cbn [fst].
    rewrite Hc. reflexivity.
  - intros Hge Hc. rewrite ParseMVInternalKey_long by assumption. cbn [fst].
    rewrite Hc. reflexivity.
  - intros Hlt. now rewrite ParseInternalKey_short.
  - intros Hlt. now rewrite ParseMVInternalKey_short.
Qed.

(** A 17-byte input whose tag is 0x0a02 (sequence 10, type byte 2), and a
    3-byte input. *)
Lemma parse_succeeds_iff_witness :
  fst (ParseMVInternalKey
         (bytes "k" ++ coding.EncodeFixed64 2562 ++ coding.EncodeFixed64 42)
         (mkParsedMVInternalKey [] 0 0 0)) = false
  /\ fst (ParseInternalKey (bytes "abc") (mkParsedInternalKey [] 0 0)) = false.
Proof.
  split.
  - destruct (parse_succeeds_iff
                (bytes "k" ++ coding.EncodeFixed64 2562 ++ coding.EncodeFixed64 42)
                (mkParsedInternalKey [] 0 0) (mkParsedMVInternalKey [] 0 0 0))
      as (_ & _ & _ & H & _ & _).
    apply H.
    + vm_compute. discriminate.
    + vm_compute. reflexivity.
  - destruct (parse_succeeds_iff (bytes "abc")
                (mkParsedInternalKey [] 0 0) (mkParsedMVInternalKey [] 0 0 0))
      as (_ & _ & _ & _ & H & _).
    apply H. vm_compute. reflexivity.
Defined.

(** C9. On an input shorter than 8 bytes (16 for the multi-version
    parser) the parser returns failure and the output parsed key keeps
    its previous value.  When the length suffices and the parser fails
    because the type byte exceeds the maximum, every field of the output
    (user key, sequence, type, and the valid time for the multi-version
    parser) holds the decoded value. *)
Theorem parse_failure_output
  (b : Slice) (r : ParsedInternalKey) (rmv : ParsedMVInternalKey) :
  (size b < 8 -> ParseInternalKey b r = (false, r))
  /\
  (size b < 16 -> ParseMVInternalKey b rmv = (false, rmv))
  /\
  (8 <= size b -> kTypeValue < Z.land (tag_of b) 255 ->
     ParseInternalKey b r =
       (false,
        mkParsedInternalKey (slice_at b 0 (size b - 8))
          (Z.shiftr (tag_of b) 8) (Z.land (tag_of b) 255)))
  /\
  (16 <= size b -> kTypeValue < Z.land (mv_tag_of b) 255 ->
     ParseMVInternalKey b rmv =
       (false,
        mkParsedMVInternalKey (slice_at b 0 (size b - 16))
          (Z.shiftr (mv_tag_of b) 8) (Z.land (mv_tag_of b) 255)
          (mv_valid_time_of b))).
Proof.
  split; [|split; [|split]].
  - apply ParseInternalKey_short.
  - apply ParseMVInternalKey_short.
  - intros Hge Hc. rewrite ParseInternalKey_long by assumption.
    f_equal. apply Z.leb_gt. exact Hc.
  - intros Hge Hc. rewrite ParseMVInternalKey_long by assumption.
    f_equal. apply Z.leb_gt. exact Hc.
Qed.

Lemma parse_failure_output_witness :
  ParseInternalKey (bytes "abc") (mkParsedInternalKey (bytes "old") 7 kTypeValue)
    = (false, mkParsedInternalKey (bytes "old") 7 kTypeValue)
  /\
  ParseMVInternalKey
    (bytes "k" ++ coding.EncodeFixed64 2562 ++ coding.EncodeFixed64 42)
    (mkParsedMVInternalKey (bytes "old") 7 kTypeValue 9)
    = (false, mkParsedMVInternalKey (bytes "k") 10 2 42).
Proof.
  split.
  - apply (parse_failure_output (bytes "abc")
             (mkParsedInternalKey (bytes "old") 7 kTypeValue)
             (mkParsedMVInternalKey [] 0 0 0)).
    vm_compute. reflexivity.
  - apply (parse_failure_output
             (bytes "k" ++ coding.EncodeFixed64 2562 ++ coding.EncodeFixed64 42)
             (mkParsedInternalKey [] 0 0)
             (mkParsedMVInternalKey (bytes "old") 7 kTypeValue 9)).
    + vm_compute. discriminate.
    + vm_compute. reflexivity.
Defined.

(** C10. Whenever a parser reaches its tag-decoding step, the sequence
    number it stores is the 64-bit tag shifted right by 8 and lies in
    [0, 2^56 - 1]: no input decodes to a sequence number above
    [kMaxSequenceNumber]. *)
Theorem parsed_sequence_bound
  (b : Slice) (r : ParsedInternalKey) (rmv : ParsedMVInternalKey) :
  (8 <= size b ->
     sequence (snd (ParseInternalKey b r)) = Z.shiftr (tag_of b) 8 /\
     0 <= sequence (snd (ParseInternalKey b r)) <= kMaxSequenceNumber)
  /\
  (16 <= size b ->
     mv_sequence (snd (ParseMVInternalKey b rmv)) = Z.shiftr (mv_tag_of b) 8 /\
     0 <= mv_sequence (snd (ParseMVInternalKey b rmv)) <= kMaxSequenceNumber).
Proof.
  assert (Hsh : forall num, 0 <= num < 2 ^ 64 ->
                 0 <= Z.shiftr num 8 <= kMaxSequenceNumber).
  { intros num Hn. rewrite kMaxSequenceNumber_eq, Z.shiftr_div_pow2 by lia.
    change (2 ^ 8) with 256.
    assert (0 <= num / 256 < 2 ^ 56); [|lia].
    split; [apply Z.div_pos; lia|].
    apply Z.div_lt_upper_bound; [lia|].
    change (256 * 2 ^ 56) with (2 ^ 64). lia. }
  split; intros Hge.
  - rewrite ParseInternalKey_long by assumption. cbn [snd sequence].
    split; [reflexivity|]. apply Hsh, DecodeFixed64_range.
  - rewrite ParseMVInternalKey_long by assumption. cbn [snd mv_sequence].
    split; [reflexivity|]. apply Hsh, DecodeFixed64_range.
Qed.

(** The all-ones tag decodes to exactly [kMaxSequenceNumber]. *)
Lemma parsed_sequence_bound_witness :
  sequence (snd (ParseInternalKey
                   (bytes "k" ++ coding.EncodeFixed64 UINT64_MAX)
                   (mkParsedInternalKey [] 0 0))) <= kMaxSequenceNumber.
Proof.
  destruct (parsed_sequence_bound (bytes "k" ++ coding.EncodeFixed64 UINT64_MAX)
              (mkParsedInternalKey [] 0 0) (mkParsedMVInternalKey [] 0 0 0))
    as [H _].
  apply H. vm_compute. discriminate.
Defined.

(** The user key of an encoded key, for both extraction functions. *)
Lemma ExtractUserKey_key (u : list byte) (v : Z) :
  ExtractUserKey (u ++ coding.EncodeFixed64 v) = Some u.
Proof.
  unfold ExtractUserKey. rewrite user_of_key, size_key.
  pose proof (size_nonneg u).
  destruct (Z.leb_spec 8 (size u + 8)); [reflexivity | lia].
Qed.

Lemma ExtractUserKey_encoded (p : ParsedInternalKey) :
  ExtractUserKey (AppendInternalKey [] p) = Some (user_key p).
Proof. rewrite AppendInternalKey_eq. apply ExtractUserKey_key. Qed.

Lemma MVExtractUserKey_key (u : list byte) (v w : Z) :
  MVExtractUserKey (u ++ coding.EncodeFixed64 v ++ coding.EncodeFixed64 w) = Some u.
Proof.
  unfold MVExtractUserKey. rewrite mv_user_of_key, size_mv_key.
  pose proof (size_nonneg u).
  destruct (Z.leb_spec 16 (size u + 16)); [reflexivity | lia].
Qed.

Lemma MVExtractUserKey_encoded (p : ParsedMVInternalKey) :
  MVExtractUserKey (AppendMVInternalKey [] p) = Some (mv_user_key p).
Proof. rewrite AppendMVInternalKey_eq. apply MVExtractUserKey_key. Qed.


(** C6. The multi-version key {"k", 10, Deletion, 42} encodes to "k",
    the 8-byte integer 2560, the 8-byte integer 42, and the extraction of
    the user key from that buffer returns exactly the one-byte user key
    "k".  The extraction for a multi-version key is the 16-byte variant,
    [MVExtractUserKey]; the 8-byte [ExtractUserKey] on the same buffer
    drops the valid time and leaves "k" followed by the tag. *)
Theorem mv_example_encoding :
  let key := AppendMVInternalKey []
               (mkParsedMVInternalKey (bytes "k") 10 kTypeDeletion 42) in
  key = bytes "k" ++ coding.EncodeFixed64 2560 ++ coding.EncodeFixed64 42
  /\ key = [x6b; x00; x0a; x00; x00; x00; x00; x00; x00;
            x2a; x00; x00; x00; x00; x00; x00; x00]
  /\ MVExtractUserKey key = Some (bytes "k")
  /\ ExtractUserKey key = Some (bytes "k" ++ coding.EncodeFixed64 2560).
Proof. vm_compute. repeat split. Qed.


(* ================================================================== *)
(** * The internal key comparator *)

Lemma Compare_unfold (U : Comparator) (a b ua ub : Slice) :
  ExtractUserKey a = Some ua -> ExtractUserKey b = Some ub ->
  InternalKeyComparator.Compare U a b =
    if Compare U ua ub =? 0 then
      if tag_of a >? tag_of b then Some (-1)
      else if tag_of a <? tag_of b then Some 1
      else Some (Compare U ua ub)
    else Some (Compare U ua ub).
Proof.
  intros Ha Hb. unfold InternalKeyComparator.Compare. rewrite Ha, Hb.
  reflexivity.
Qed.

(** C1. [Compare] on encoded internal keys returns the result of the
    user comparator on the user-key portions when that is nonzero; on a
    tie the key with the numerically larger 8-byte tag sorts first.  In
    particular, for one user key [u] (a tie under the user comparator)
    and sequences [s1 > s2] within [0, 2^56 - 1], the encoding of
    {u, s1, t1} compares below that of {u, s2, t2} for all types. *)
Theorem internal_compare_order (U : Comparator) :
  (forall a b ua ub : Slice,
     ExtractUserKey a = Some ua -> ExtractUserKey b = Some ub ->
     (Compare U ua ub <> 0 ->
        InternalKeyComparator.Compare U a b = Some (Compare U ua ub)) /\
     (Compare U ua ub = 0 -> tag_of a > tag_of b ->
        InternalKeyComparator.Compare U a b = Some (-1)) /\
     (Compare U ua ub = 0 -> tag_of a < tag_of b ->
        InternalKeyComparator.Compare U a b = Some 1) /\
     (Compare U ua ub = 0 -> tag_of a = tag_of b ->
        InternalKeyComparator.Compare U a b = Some 0))
  /\
  (forall (u : Slice) (s1 s2 : SequenceNumber) (t1 t2 : ValueType),
     Compare U u u = 0 ->
     0 <= s2 -> s2 < s1 -> s1 <= kMaxSequenceNumber ->
     IsValueType t1 -> IsValueType t2 ->
     exists r,
       InternalKeyComparator.Compare U
         (AppendInternalKey [] (mkParsedInternalKey u s1 t1))
         (AppendInternalKey [] (mkParsedInternalKey u s2 t2)) = Some r
       /\ r < 0).
Proof.
  split.
  - intros a b ua ub Ha Hb. rewrite (Compare_unfold U a b ua ub Ha Hb).
    split; [|split; [|split]].
    + intros Hr. apply Z.eqb_neq in Hr. now rewrite Hr.
    + intros Hr Hgt. rewrite Hr. cbn [Z.eqb].
      destruct (Z.gtb_spec (tag_of a) (tag_of b)); [reflexivity | lia].
    + intros Hr Hlt. rewrite Hr. cbn [Z.eqb].
      destruct (Z.gtb_spec (tag_of a) (tag_of b)); [lia|].
      destruct (Z.ltb_spec (tag_of a) (tag_of b)); [reflexivity | lia].
    + intros Hr Heq. rewrite Hr. cbn [Z.eqb].
      destruct (Z.gtb_spec (tag_of a) (tag_of b)); [lia|].
      destruct (Z.ltb_spec (tag_of a) (tag_of b)); [lia | reflexivity].
  - intros u s1 s2 t1 t2 Hu H0 Hlt Hmax Ht1 Ht2.
    exists (-1). split; [|lia].
    rewrite (Compare_unfold U _ _ u u)
      by apply (ExtractUserKey_encoded (mkParsedInternalKey u _ _)).
    rewrite Hu. cbn [Z.eqb].
    rewrite !AppendInternalKey_eq. cbn [app user_key sequence type].
    rewrite !tag_of_key, !wrap64_Pack.
    apply IsValueType_byte in Ht1, Ht2.
    rewrite !Pack_small by lia.
    destruct (Z.gtb_spec (t1 + 256 * s1) (t2 + 256 * s2)); [reflexivity | lia].
Qed.

Lemma internal_compare_order_witness :
  exists r,
    InternalKeyComparator.Compare BytewiseComparator
      (AppendInternalKey [] (mkParsedInternalKey (bytes "k") 7 kTypeDeletion))
      (AppendInternalKey [] (mkParsedInternalKey (bytes "k") 3 kTypeValue))
    = Some r /\ r < 0.
Proof.
  destruct (internal_compare_order BytewiseComparator) as [_ H].
  apply (H (bytes "k") 7 3 kTypeDeletion kTypeValue).
  - vm_compute. reflexivity.
  - lia.
  - lia.
  - vm_compute. discriminate.
  - left. reflexivity.
  - right. reflexivity.
Defined.

(* ================================================================== *)
(** * The filter policy adapter *)





(* ================================================================== *)
(** * Lookup keys *)

Lemma sub_0_r_size (s : list byte) : size s - 0 = size s.
Proof. lia. Qed.

(** C7. For the lookup key built from a user key [u] and a sequence [s],
    in storage of any previous content: the memtable key is the varint32
    of the internal key length followed by the internal key, and nothing
    more; the internal key is [u] followed by the 8-byte tag; the user
    key is [u], the internal key without its last 8 bytes.  For the
    multi-version lookup key: the user key is the internal key without
    its last 16 bytes, and the valid time is the fixed64 held in the 8
    bytes that end at [end_], the last 8 bytes of the internal key: the
    valid time given.  The buffer is the memtable key followed by the
    untouched rest of the storage. *)
Theorem lookup_key_views
  (mem : list byte) (u : Slice) (s : SequenceNumber) (vt : ValidTime) :
  let k := LookupKey.make mem u s in
  let m := MVLookupKey.make mem u s vt in
  let tag := coding.EncodeFixed64 (PackSequenceAndType s kValueTypeForSeek) in
  LookupKey.memtable_key k
    = coding.EncodeVarint32 (size (LookupKey.internal_key k))
      ++ LookupKey.internal_key k
  /\ LookupKey.internal_key k = u ++ tag
  /\ LookupKey.user_key k = u
  /\ ExtractUserKey (LookupKey.internal_key k) = Some (LookupKey.user_key k)
  /\ LookupKey.buf k
     = LookupKey.memtable_key k
       ++ skipn (length (LookupKey.memtable_key k)) mem
  /\ MVLookupKey.memtable_key m
       = coding.EncodeVarint32 (size (MVLookupKey.internal_key m))
         ++ MVLookupKey.internal_key m
  /\ MVLookupKey.internal_key m = u ++ tag ++ coding.EncodeFixed64 vt
  /\ MVLookupKey.user_key m = u
  /\ MVExtractUserKey (MVLookupKey.internal_key m) = Some (MVLookupKey.user_key m)
  /\ MVLookupKey.valid_time m = mv_valid_time_of (MVLookupKey.internal_key m)
  /\ MVLookupKey.valid_time m = wrap64 vt
  /\ MVLookupKey.buf m
     = MVLookupKey.memtable_key m
       ++ skipn (length (MVLookupKey.memtable_key m)) mem.
Proof.
  intros k m tag.
  set (V := coding.EncodeVarint32 (size u + 8)).
  set (W := coding.EncodeVarint32 (size u + 16)).
  set (E := coding.EncodeFixed64 vt).
  assert (Ht : size tag = 8) by apply size_EncodeFixed64.
  assert (He : size E = 8) by apply size_EncodeFixed64.
  assert (Hmk : LookupKey.memtable_key k = V ++ u ++ tag).
  { unfold LookupKey.memtable_key, k, LookupKey.make.
    cbn [LookupKey.buf LookupKey.start_ LookupKey.end_].
    fold V tag. rewrite sub_0_r_size, slice_at_prefix.
    now rewrite <- app_assoc. }
  assert (Hik : LookupKey.internal_key k = u ++ tag).
  { unfold LookupKey.internal_key, k, LookupKey.make.
    cbn [LookupKey.buf LookupKey.kstart_ LookupKey.end_].
    fold V tag. set (S := skipn _ mem).
    replace (((V ++ u) ++ tag) ++ S) with (V ++ (u ++ tag) ++ S)
      by now rewrite <- !app_assoc.
    apply slice_at_middle_eq; [reflexivity|]. rewrite !size_app. lia. }
  assert (Huk : LookupKey.user_key k = u).
  { unfold LookupKey.user_key, k, LookupKey.make.
    cbn [LookupKey.buf LookupKey.kstart_ LookupKey.end_].
    fold V tag. set (S := skipn _ mem).
    replace (((V ++ u) ++ tag) ++ S) with (V ++ u ++ (tag ++ S))
      by now rewrite <- !app_assoc.
    apply slice_at_middle_eq; [reflexivity|]. rewrite !size_app. lia. }
  assert (Hmmk : MVLookupKey.memtable_key m = W ++ u ++ tag ++ E).
  { unfold MVLookupKey.memtable_key, m, MVLookupKey.make.
    cbn [MVLookupKey.buf MVLookupKey.start_ MVLookupKey.end_].
    fold W tag E. rewrite sub_0_r_size, slice_at_prefix.
    now rewrite <- !app_assoc. }
  assert (Hmik : MVLookupKey.internal_key m = u ++ tag ++ E).
  { unfold MVLookupKey.internal_key, m, MVLookupKey.make.
    cbn [MVLookupKey.buf MVLookupKey.kstart_ MVLookupKey.end_].
    fold W tag E. set (S := skipn _ mem).
    replace ((((W ++ u) ++ tag) ++ E) ++ S) with (W ++ (u ++ tag ++ E) ++ S)
      by now rewrite <- !app_assoc.
    apply slice_at_middle_eq; [reflexivity|]. rewrite !size_app. lia. }
  assert (Hmuk : MVLookupKey.user_key m = u).
  { unfold MVLookupKey.user_key, m, MVLookupKey.make.
    cbn [MVLookupKey.buf MVLookupKey.kstart_ MVLookupKey.end_].
    fold W tag E. set (S := skipn _ mem).
    replace ((((W ++ u) ++ tag) ++ E) ++ S) with (W ++ u ++ ((tag ++ E) ++ S))
      by now rewrite <- !app_assoc.
    apply slice_at_middle_eq; [reflexivity|]. rewrite !size_app. lia. }
  assert (Hvt : MVLookupKey.valid_time m = coding.DecodeFixed64 E).
  { unfold MVLookupKey.valid_time, m, MVLookupKey.make.
    cbn [MVLookupKey.buf MVLookupKey.end_].
    fold W tag E. set (S := skipn _ mem). f_equal.
    replace ((((W ++ u) ++ tag) ++ E) ++ S) with (((W ++ u) ++ tag) ++ E ++ S)
      by now rewrite <- !app_assoc.
    apply slice_at_middle_eq; [|now rewrite He].
    rewrite (size_app _ E). lia. }
  split; [|split; [exact Hik | split; [exact Huk | split; [|split; [|split;
    [|split; [exact Hmik | split; [exact Hmuk | split; [|split;
    [|split]]]]]]]]]].
  - rewrite Hmk, Hik. unfold tag at 2. rewrite size_key. reflexivity.
  - rewrite Hik, Huk. apply ExtractUserKey_key.
  - rewrite Hmk. unfold k, LookupKey.make. cbn [LookupKey.buf].
    fold V tag. now rewrite <- !app_assoc.
  - rewrite Hmmk, Hmik. unfold tag at 2, E at 2. rewrite size_mv_key.
    reflexivity.
  - rewrite Hmik, Hmuk. apply MVExtractUserKey_key.
  - rewrite Hvt, Hmik. unfold mv_valid_time_of. f_equal. symmetry.
    rewrite app_assoc. apply slice_at_suffix_eq; [|now rewrite He].
    rewrite (size_app _ E). lia.
  - rewrite Hvt. unfold E, coding.DecodeFixed64, coding.EncodeFixed64.
    rewrite <- (app_nil_r (coding.EncodeFixed 8 vt)). apply DecodeFixed_EncodeFixed.
  - rewrite Hmmk. unfold m, MVLookupKey.make. cbn [MVLookupKey.buf].
    fold W tag E. now rewrite <- !app_assoc.
Qed.

(** The probe key for user key "xyz" at sequence 3, written to an inline
    array full of 0xff bytes: the length prefix is the one-byte varint
    11, and the views stop at [end_]. *)
Lemma lookup_key_example :
  let k := LookupKey.make (repeat xff 200) (bytes "xyz") 3 in
  LookupKey.memtable_key k
    = [x0b] ++ bytes "xyz" ++ coding.EncodeFixed64 (3 * 256 + 1)
  /\ LookupKey.internal_key k = bytes "xyz" ++ coding.EncodeFixed64 (3 * 256 + 1)
  /\ LookupKey.user_key k = bytes "xyz"
  /\ LookupKey.storage k = Inline
  /\ size (LookupKey.buf k) = 200.
Proof. vm_compute. repeat split. Qed.

(* ================================================================== *)
(** * The owning key types *)

Lemma string_assign_all (s : Slice) : string_assign s (size s) = Some s.
Proof.
  unfold string_assign. rewrite Z.leb_refl, slice_at_all. reflexivity.
Qed.

Lemma InternalKey_DecodeFrom_eq (k : InternalKey.t) (s : Slice) :
  InternalKey.DecodeFrom k s = Some (negb (empty s), InternalKey.mk s).
Proof. unfold InternalKey.DecodeFrom. now rewrite string_assign_all. Qed.

Lemma MVInternalKey_DecodeFrom_eq (k : MVInternalKey.t) (s : Slice) :
  MVInternalKey.DecodeFrom k s = Some (negb (empty s), MVInternalKey.mk s).
Proof. unfold MVInternalKey.DecodeFrom. now rewrite string_assign_all. Qed.

(** On an input that has the 8 bytes to drop, [DecodeFromMV] keeps the
    leading [size s - 8] bytes and reports whether any are left. *)
Lemma InternalKey_DecodeFromMV_eq (k : InternalKey.t) (s : Slice) :
  8 <= size s < 2 ^ 64 ->
  InternalKey.DecodeFromMV k s =
    Some (negb (size s =? 8), InternalKey.mk (slice_at s 0 (size s - 8))).
Proof.
  intros Hs. unfold InternalKey.DecodeFromMV, string_assign.
  rewrite wrap64_small by lia.
  destruct (Z.leb_spec (size s - 8) (size s)); [|lia].
  cbn [bind]. rewrite empty_iff_size. do 3 f_equal.
  unfold slice_at, size. cbn [Z.to_nat skipn].
  rewrite length_firstn. unfold size in Hs.
  destruct (Z.eqb_spec (Z.of_nat (length s)) 8);
    destruct (Z.eqb_spec (Z.of_nat (Nat.min (Z.to_nat (Z.of_nat (length s) - 8))
                                        (length s))) 0); lia.
Qed.

(** On an input shorter than 8 bytes the length passed to [assign] has
    wrapped around and [DecodeFromMV] returns nothing. *)
Lemma InternalKey_DecodeFromMV_short (k : InternalKey.t) (s : Slice) :
  size s < 8 -> InternalKey.DecodeFromMV k s = None.
Proof.
  intros Hs. unfold InternalKey.DecodeFromMV, string_assign, wrap64.
  pose proof (size_nonneg s).
  replace ((size s - 8) mod 2 ^ 64) with (size s - 8 + 2 ^ 64).
  - destruct (Z.leb_spec (size s - 8 + 2 ^ 64) (size s)); [lia | reflexivity].
  - symmetry. rewrite <- (Z.mod_add _ 1) by lia.
    rewrite Z.mul_1_l. apply Z.mod_small. lia.
Qed.

(** C5.  [DecodeFromMV], the method of [InternalKey] that decodes from
    the bytes of a multi-version key, does not return failure on an input
    shorter than 8 bytes, although no byte is left once 8 are dropped:
    the length [s.size() - 8] wraps around and there is no result at all.
    Both on a 3-byte input and on the empty input. *)
Theorem DecodeFromMV_short_input :
  InternalKey.DecodeFromMV InternalKey.new (bytes "abc") = None
  /\ InternalKey.DecodeFromMV InternalKey.new [] = None.
Proof. split; apply InternalKey_DecodeFromMV_short; vm_compute; reflexivity. Qed.

(** What C5 states does hold from 8 bytes on, and for [DecodeFrom] of
    both types on every input. *)
Lemma decode_from_copies (k : InternalKey.t) (m : MVInternalKey.t) (s : Slice) :
  (8 <= size s < 2 ^ 64 ->
     exists ok k',
       InternalKey.DecodeFromMV k s = Some (ok, k') /\
       InternalKey.rep_ k' = slice_at s 0 (size s - 8) /\
       size (InternalKey.rep_ k') = size s - 8 /\
       (ok = false <-> InternalKey.rep_ k' = []))
  /\
  (exists ok k',
     InternalKey.DecodeFrom k s = Some (ok, k') /\
     InternalKey.rep_ k' = s /\ (ok = false <-> InternalKey.rep_ k' = []))
  /\
  (exists ok m',
     MVInternalKey.DecodeFrom m s = Some (ok, m') /\
     MVInternalKey.rep_ m' = s /\ (ok = false <-> MVInternalKey.rep_ m' = [])).
Proof.
  assert (He : forall l : list byte, negb (empty l) = false <-> l = []).
  { intros [|x l]; cbn; split; congruence. }
  split; [|split].
  - intros Hs. rewrite InternalKey_DecodeFromMV_eq by assumption.
    eexists _, _. split; [reflexivity|]. cbn [InternalKey.rep_].
    assert (Hsz : size (slice_at s 0 (size s - 8)) = size s - 8).
    { unfold slice_at, size in *. cbn [Z.to_nat skipn]. rewrite length_firstn. lia. }
    split; [reflexivity|]. split; [exact Hsz|].
    rewrite <- He, empty_iff_size, Hsz.
    destruct (Z.eqb_spec (size s) 8); destruct (Z.eqb_spec (size s - 8) 0);
      cbn; split; intros; try reflexivity; try lia; try discriminate.
  - rewrite InternalKey_DecodeFrom_eq. eexists _, _.
    split; [reflexivity|]. cbn [InternalKey.rep_]. split; [reflexivity | apply He].
  - rewrite MVInternalKey_DecodeFrom_eq. eexists _, _.
    split; [reflexivity|]. cbn [MVInternalKey.rep_]. split; [reflexivity | apply He].
Qed.

(** ** The buffer invariant *)

Lemma WellFormed_size (b : Slice) : WellFormed b = true -> 8 <= size b.
Proof.
  unfold WellFormed. intros H.
  destruct (Z.lt_ge_cases (size b) 8) as [Hlt | Hge]; [|exact Hge].
  rewrite ParseInternalKey_short in H by assumption. discriminate.
Qed.

Lemma MVWellFormed_size (b : Slice) : MVWellFormed b = true -> 16 <= size b.
Proof.
  unfold MVWellFormed. intros H.
  destruct (Z.lt_ge_cases (size b) 16) as [Hlt | Hge]; [|exact Hge].
  rewrite ParseMVInternalKey_short in H by assumption. discriminate.
Qed.

Lemma WellFormed_encoded (p : ParsedInternalKey) :
  IsValueType (type p) -> WellFormed (AppendInternalKey [] p) = true.
Proof.
  intros Ht. unfold WellFormed. rewrite AppendInternalKey_eq. cbn [app].
  rewrite ParseInternalKey_long
    by (rewrite size_key; pose proof (size_nonneg (user_key p)); lia).
  cbn [fst]. rewrite tag_of_key, wrap64_Pack.
  rewrite Pack_type_byte by now apply IsValueType_byte.
  now apply IsValueType_le.
Qed.

Lemma MVWellFormed_encoded (p : ParsedMVInternalKey) :
  IsValueType (mv_type p) -> MVWellFormed (AppendMVInternalKey [] p) = true.
Proof.
  intros Ht. unfold MVWellFormed. rewrite AppendMVInternalKey_eq. cbn [app].
  rewrite ParseMVInternalKey_long
    by (rewrite size_mv_key; pose proof (size_nonneg (mv_user_key p)); lia).
  cbn [fst]. rewrite mv_tag_of_key, wrap64_Pack.
  rewrite Pack_type_byte by now apply IsValueType_byte.
  now apply IsValueType_le.
Qed.

Lemma InternalKey_step_invariant (k : InternalKey.t) (o : InternalKeyOps.Op) :
  InternalKeyOps.Checked o ->
  exists k', InternalKeyOps.step k o = Some k' /\ InternalKeyOps.Invariant k'.
Proof.
  unfold InternalKeyOps.Invariant.
  destruct o as [ | p | s | s | p | ]; cbn [InternalKeyOps.Checked InternalKeyOps.step].
  - intros _. eexists. split; [reflexivity|]. left. reflexivity.
  - intros Ht. eexists. split; [reflexivity|]. right.
    unfold InternalKey.make. cbn [InternalKey.rep_].
    destruct p as [u sq ty]. cbn [user_key sequence type] in *.
    pose proof (WellFormed_encoded (mkParsedInternalKey u sq ty) Ht) as Hw.
    split; [exact Hw | now apply WellFormed_size].
  - intros Hs. rewrite InternalKey_DecodeFrom_eq. cbn [bind snd].
    eexists. split; [reflexivity|]. cbn [InternalKey.rep_].
    destruct Hs as [-> | Hw]; [left; reflexivity | right].
    split; [exact Hw | now apply WellFormed_size].
  - intros [Hs Hw]. rewrite InternalKey_DecodeFromMV_eq by assumption.
    cbn [bind snd]. eexists. split; [reflexivity|]. cbn [InternalKey.rep_].
    destruct Hw as [H8 | Hw].
    + left. rewrite H8. destruct s; reflexivity.
    + right. split; [exact Hw | now apply WellFormed_size].
  - intros Ht. eexists. split; [reflexivity|]. right.
    unfold InternalKey.SetFrom. cbn [InternalKey.rep_].
    split; [now apply WellFormed_encoded | now apply WellFormed_size, WellFormed_encoded].
  - intros _. eexists. split; [reflexivity|]. left. reflexivity.
Qed.

Lemma MVInternalKey_step_invariant (k : MVInternalKey.t) (o : MVInternalKeyOps.Op) :
  MVInternalKeyOps.Checked o ->
  exists k', MVInternalKeyOps.step k o = Some k' /\ MVInternalKeyOps.Invariant k'.
Proof.
  unfold MVInternalKeyOps.Invariant.
  destruct o as [ | p | s | p | ];
    cbn [MVInternalKeyOps.Checked MVInternalKeyOps.step].
  - intros _. eexists. split; [reflexivity|]. left. reflexivity.
  - intros Ht. eexists. split; [reflexivity|]. right.
    unfold MVInternalKey.make. cbn [MVInternalKey.rep_].
    destruct p as [u sq ty vt]. cbn [mv_user_key mv_sequence mv_type valid_time] in *.
    pose proof (MVWellFormed_encoded (mkParsedMVInternalKey u sq ty vt) Ht) as Hw.
    split; [exact Hw | now apply MVWellFormed_size].
  - intros Hs. rewrite MVInternalKey_DecodeFrom_eq. cbn [bind snd].
    eexists. split; [reflexivity|]. cbn [MVInternalKey.rep_].
    destruct Hs as [-> | Hw]; [left; reflexivity | right].
    split; [exact Hw | now apply MVWellFormed_size].
  - intros Ht. eexists. split; [reflexivity|]. right.
    unfold MVInternalKey.SetFrom. cbn [MVInternalKey.rep_].
    split; [now apply MVWellFormed_encoded
           | now apply MVWellFormed_size, MVWellFormed_encoded].
  - intros _. eexists. split; [reflexivity|]. left. reflexivity.
Qed.

(** C4, as the code has it.  Every sequence of the operations runs to an
    end and leaves the owned buffer empty or a well-formed encoded key of
    at least the minimum suffix length (8 bytes for [InternalKey], 16 for
    [MVInternalKey]), provided the parsed keys given to the constructor
    and to [SetFrom] carry a declared type and the bytes that [DecodeFrom]
    and [DecodeFromMV] store (the input, respectively the input of at
    least 8 bytes without its last 8) are themselves empty or a
    well-formed encoded key: the two decoders store without validating. *)
Theorem owning_key_invariant
  (k0 : InternalKey.t) (ops : list InternalKeyOps.Op)
  (m0 : MVInternalKey.t) (mops : list MVInternalKeyOps.Op)
  (Hops : Forall InternalKeyOps.Checked ops)
  (Hmops : Forall MVInternalKeyOps.Checked mops)
  (Hk0 : InternalKeyOps.Invariant k0)
  (Hm0 : MVInternalKeyOps.Invariant m0) :
  (exists k, InternalKeyOps.run k0 ops = Some k /\ InternalKeyOps.Invariant k)
  /\
  (exists m, MVInternalKeyOps.run m0 mops = Some m /\ MVInternalKeyOps.Invariant m).
Proof.
  split.
  - clear Hmops Hm0 m0 mops. revert k0 Hk0.
    induction Hops as [|o ops Ho _ IH]; intros k0 Hk0.
    + exists k0. split; [reflexivity | exact Hk0].
    + destruct (InternalKey_step_invariant k0 o Ho) as (k1 & Hstep & Hk1).
      cbn [InternalKeyOps.run]. rewrite Hstep. cbn [bind]. now apply IH.
  - clear Hops Hk0 k0 ops. revert m0 Hm0.
    induction Hmops as [|o mops Ho _ IH]; intros m0 Hm0.
    + exists m0. split; [reflexivity | exact Hm0].
    + destruct (MVInternalKey_step_invariant m0 o Ho) as (m1 & Hstep & Hm1).
      cbn [MVInternalKeyOps.run]. rewrite Hstep. cbn [bind]. now apply IH.
Qed.

Lemma owning_key_invariant_witness :
  (exists k,
     InternalKeyOps.run InternalKey.new
       [InternalKeyOps.OpMake (mkParsedInternalKey (bytes "abc") 5 kTypeValue);
        InternalKeyOps.OpClear;
        InternalKeyOps.OpDecodeFromMV
          (AppendMVInternalKey []
             (mkParsedMVInternalKey (bytes "k") 10 kTypeDeletion 42))] = Some k
     /\ InternalKeyOps.Invariant k)
  /\
  (exists m,
     MVInternalKeyOps.run MVInternalKey.new
       [MVInternalKeyOps.OpDecodeFrom [];
        MVInternalKeyOps.OpSetFrom
          (mkParsedMVInternalKey (bytes "k") 10 kTypeDeletion 42)] = Some m
     /\ MVInternalKeyOps.Invariant m).
Proof.
  apply owning_key_invariant.
  - apply Forall_cons; [right; reflexivity|].
    apply Forall_cons; [exact I|].
    apply Forall_cons; [|apply Forall_nil].
    split.
    + vm_compute. split; [discriminate | reflexivity].
    + right. vm_compute. reflexivity.
  - apply Forall_cons; [left; reflexivity|].
    apply Forall_cons; [left; reflexivity | apply Forall_nil].
  - left. reflexivity.
  - left. reflexivity.
Defined.

(** C4, as stated, fails: [DecodeFrom] of three bytes leaves a buffer
    that is neither empty nor a well-formed encoded key, for both
    types. *)
Lemma owning_key_invariant_broken_by_DecodeFrom :
  ~ (forall ops k,
       InternalKeyOps.run InternalKey.new ops = Some k ->
       InternalKeyOps.Invariant k)
  /\
  ~ (forall mops m,
       MVInternalKeyOps.run MVInternalKey.new mops = Some m ->
       MVInternalKeyOps.Invariant m).
Proof.
  split; intros H.
  - specialize (H [InternalKeyOps.OpDecodeFrom (bytes "abc")]
                  (InternalKey.mk (bytes "abc")) eq_refl).
    destruct H as [H | [H _]]; vm_compute in H; discriminate.
  - specialize (H [MVInternalKeyOps.OpDecodeFrom (bytes "abc")]
                  (MVInternalKey.mk (bytes "abc")) eq_refl).
    destruct H as [H | [H _]]; vm_compute in H; discriminate.
Qed.

(* ================================================================== *)
(** * Further properties of the header

    ** The shape of an encoded key *)

Lemma byte_of_to_Z (b : byte) : coding.byte_of_Z (coding.byte_to_Z b) = b.
Proof.
  unfold coding.byte_of_Z. pose proof (byte_to_Z_range b) as Hr.
  rewrite Z.mod_small by exact Hr. unfold coding.byte_to_Z.
  rewrite N2Z.id, Byte.of_to_N. reflexivity.
Qed.

Lemma EncodeFixed_DecodeFixed (n : nat) (l : list byte) :
  length l = n -> coding.EncodeFixed n (coding.DecodeFixed n l) = l.
Proof.
  revert l. induction n as [|n IH]; intros l Hl.
  - destruct l; [reflexivity | discriminate].
  - destruct l as [|b l]; [discriminate|]. injection Hl as Hl.
    cbn [coding.DecodeFixed coding.EncodeFixed].
    pose proof (byte_to_Z_range b) as Hb.
    pose proof (DecodeFixed_range n l) as Hd.
    rewrite lor_shiftl_8 by exact Hb.
    change 255 with (Z.ones 8). rewrite Z.land_ones by lia.
    change (2 ^ 8) with 256.
    rewrite Z.shiftr_div_pow2 by lia. change (2 ^ 8) with 256.
    rewrite (Z.mul_comm 256), Z.mod_add, Z.div_add by lia.
    rewrite Z.mod_small, Z.div_small by lia.
    rewrite byte_of_to_Z. cbn [Z.add]. now rewrite IH.
Qed.

Lemma EncodeFixed64_DecodeFixed64 (l : list byte) :
  size l = 8 -> coding.EncodeFixed64 (coding.DecodeFixed64 l) = l.
Proof.
  intros Hl. apply EncodeFixed_DecodeFixed. unfold size in Hl. lia.
Qed.

Lemma size_slice_at (b : list byte) (off n : Z) :
  0 <= off -> 0 <= n -> off + n <= size b -> size (slice_at b off n) = n.
Proof.
  intros Ho Hn Hb. unfold slice_at, size in *.
  rewrite length_firstn, length_skipn. lia.
Qed.

Lemma slice_at_split (b : list byte) (n : Z) :
  0 <= n <= size b -> b = slice_at b 0 n ++ slice_at b n (size b - n).
Proof.
  intros Hn. unfold slice_at, size in *. cbn [Z.to_nat skipn].
  rewrite (firstn_all2 (n := Z.to_nat (Z.of_nat (length b) - n)))
    by (rewrite length_skipn; lia).
  symmetry. apply firstn_skipn.
Qed.

(** Every buffer of at least 8 bytes is a user key followed by the
    fixed64 of its tag. *)
Lemma key_shape (b : Slice) :
  8 <= size b ->
  b = slice_at b 0 (size b - 8) ++ coding.EncodeFixed64 (tag_of b).
Proof.
  intros Hb. unfold tag_of.
  rewrite EncodeFixed64_DecodeFixed64 by (apply size_slice_at; lia).
  rewrite (slice_at_split b (size b - 8)) at 1 by lia.
  do 2 f_equal. lia.
Qed.

Lemma tag_of_range (b : Slice) : 0 <= tag_of b < 2 ^ 64.
Proof. apply DecodeFixed64_range. Qed.

(** Every buffer of at least 16 bytes is a user key followed by the
    fixed64 of its tag and the fixed64 of its valid time. *)
Lemma mv_key_shape (b : Slice) :
  16 <= size b ->
  b = slice_at b 0 (size b - 16)
      ++ coding.EncodeFixed64 (mv_tag_of b)
      ++ coding.EncodeFixed64 (mv_valid_time_of b).
Proof.
  intros Hb.
  assert (H1 : b = slice_at b 0 (size b - 16) ++ slice_at b (size b - 16) 16).
  { rewrite (slice_at_split b (size b - 16)) at 1 by lia. do 2 f_equal. lia. }
  assert (H2 : slice_at b (size b - 16) 16
               = slice_at b (size b - 16) 8 ++ slice_at b (size b - 8) 8).
  { unfold slice_at.
    replace (Z.to_nat (size b - 8)) with (8 + Z.to_nat (size b - 16))%nat by lia.
    rewrite <- skipn_skipn.
    change (Z.to_nat 16) with (8 + 8)%nat. change (Z.to_nat 8) with 8%nat.
    rewrite <- (firstn_skipn 8 (firstn (8 + 8) _)) at 1.
    rewrite firstn_firstn, skipn_firstn_comm. reflexivity. }
  unfold mv_tag_of, mv_valid_time_of.
  rewrite !EncodeFixed64_DecodeFixed64 by (apply size_slice_at; lia).
  rewrite <- H2. exact H1.
Qed.

Lemma Pack_unpack (num : Z) :
  0 <= num < 2 ^ 64 ->
  PackSequenceAndType (Z.shiftr num 8) (Z.land num 255) = num.
Proof.
  intros Hn. unfold PackSequenceAndType, wrap64.
  change 255 with (Z.ones 8). rewrite Z.land_ones by lia.
  change (2 ^ 8) with 256.
  rewrite lor_tag by (apply Z.mod_pos_bound; lia).
  rewrite Z.shiftr_div_pow2 by lia. change (2 ^ 8) with 256.
  rewrite Z.add_comm, <- Z.div_mod by lia. now apply Z.mod_small.
Qed.

Lemma EncodeFixed64_inj (v w : Z) :
  0 <= v < 2 ^ 64 -> 0 <= w < 2 ^ 64 ->
  coding.EncodeFixed64 v = coding.EncodeFixed64 w -> v = w.
Proof.
  intros Hv Hw H.
  rewrite <- (DecodeFixed64_EncodeFixed64 v Hv), <- (DecodeFixed64_EncodeFixed64 w Hw).
  now rewrite H.
Qed.

Lemma unpack_inj (v w : Z) :
  0 <= v < 2 ^ 64 -> 0 <= w < 2 ^ 64 ->
  Z.shiftr v 8 = Z.shiftr w 8 -> Z.land v 255 = Z.land w 255 -> v = w.
Proof.
  intros Hv Hw Hs Hl.
  rewrite <- (Pack_unpack v Hv), <- (Pack_unpack w Hw). now rewrite Hs, Hl.
Qed.

(** ** Extraction of the user key *)

Lemma ExtractUserKey_short (b : Slice) : size b < 8 -> ExtractUserKey b = None.
Proof.
  intros H. unfold ExtractUserKey.
  destruct (Z.leb_spec 8 (size b)); [lia | reflexivity].
Qed.

Lemma ExtractUserKey_long (b : Slice) :
  8 <= size b -> ExtractUserKey b = Some (slice_at b 0 (size b - 8)).
Proof.
  intros H. unfold ExtractUserKey.
  destruct (Z.leb_spec 8 (size b)); [reflexivity | lia].
Qed.

Lemma MVExtractUserKey_short (b : Slice) : size b < 16 -> MVExtractUserKey b = None.
Proof.
  intros H. unfold MVExtractUserKey.
  destruct (Z.leb_spec 16 (size b)); [lia | reflexivity].
Qed.

Lemma MVExtractUserKey_long (b : Slice) :
  16 <= size b -> MVExtractUserKey b = Some (slice_at b 0 (size b - 16)).
Proof.
  intros H. unfold MVExtractUserKey.
  destruct (Z.leb_spec 16 (size b)); [reflexivity | lia].
Qed.

(** X1. [ExtractUserKey] returns [u] exactly when the input is [u]
    followed by 8 more bytes, and trips its assertion exactly on inputs
    shorter than 8 bytes; [MVExtractUserKey] likewise with 16 bytes. *)
Theorem extract_user_key_iff (b u : Slice) :
  (ExtractUserKey b = Some u <-> exists tag, size tag = 8 /\ b = u ++ tag)
  /\ (ExtractUserKey b = None <-> size b < 8)
  /\ (MVExtractUserKey b = Some u <-> exists suffix, size suffix = 16 /\ b = u ++ suffix)
  /\ (MVExtractUserKey b = None <-> size b < 16).
Proof.
  split; [|split; [|split]].
  - split.
    + intros H. destruct (Z.lt_ge_cases (size b) 8) as [Hlt | Hge].
      * rewrite ExtractUserKey_short in H by assumption. discriminate.
      * rewrite ExtractUserKey_long in H by assumption. injection H as <-.
        exists (slice_at b (size b - 8) 8). split.
        -- apply size_slice_at; lia.
        -- rewrite (slice_at_split b (size b - 8)) at 1 by lia.
           do 2 f_equal. lia.
    + intros (tag & Ht & ->).
      rewrite ExtractUserKey_long
        by (rewrite size_app; pose proof (size_nonneg u); lia).
      f_equal. apply slice_at_prefix_eq. rewrite size_app. lia.
  - split.
    + intros H. destruct (Z.lt_ge_cases (size b) 8) as [Hlt | Hge]; [exact Hlt|].
      rewrite ExtractUserKey_long in H by assumption. discriminate.
    + apply ExtractUserKey_short.
  - split.
    + intros H. destruct (Z.lt_ge_cases (size b) 16) as [Hlt | Hge].
      * rewrite MVExtractUserKey_short in H by assumption. discriminate.
      * rewrite MVExtractUserKey_long in H by assumption. injection H as <-.
        exists (slice_at b (size b - 16) 16). split.
        -- apply size_slice_at; lia.
        -- rewrite (slice_at_split b (size b - 16)) at 1 by lia.
           do 2 f_equal. lia.
    + intros (suffix & Ht & ->).
      rewrite MVExtractUserKey_long
        by (rewrite size_app; pose proof (size_nonneg u); lia).
      f_equal. apply slice_at_prefix_eq. rewrite size_app. lia.
  - split.
    + intros H. destruct (Z.lt_ge_cases (size b) 16) as [Hlt | Hge]; [exact Hlt|].
      rewrite MVExtractUserKey_long in H by assumption. discriminate.
    + apply MVExtractUserKey_short.
Qed.

Lemma extract_user_key_iff_witness :
  ExtractUserKey (bytes "abc" ++ bytes "12345678") = Some (bytes "abc").
Proof.
  destruct (extract_user_key_iff (bytes "abc" ++ bytes "12345678") (bytes "abc"))
    as [[_ H] _].
  apply H. exists (bytes "12345678"). split; reflexivity.
Defined.

(** X2. Removing the 16-byte suffix of a multi-version key is removing 8
    bytes twice: [MVExtractUserKey] is [ExtractUserKey] applied to the
    result of [ExtractUserKey], assertion failures included. *)
Theorem mv_extract_is_extract_twice (b : Slice) :
  MVExtractUserKey b = (u <- ExtractUserKey b ;; ExtractUserKey u).
Proof.
  destruct (Z.lt_ge_cases (size b) 16) as [Hlt | Hge].
  - rewrite MVExtractUserKey_short by assumption.
    destruct (Z.lt_ge_cases (size b) 8) as [Hlt8 | Hge8].
    + rewrite ExtractUserKey_short by assumption. reflexivity.
    + rewrite ExtractUserKey_long by assumption. cbn [bind].
      symmetry. apply ExtractUserKey_short.
      rewrite size_slice_at; lia.
  - rewrite (mv_key_shape b Hge) at 1 2.
    rewrite MVExtractUserKey_key, app_assoc, ExtractUserKey_key. cbn [bind].
    symmetry. apply ExtractUserKey_key.
Qed.

(** ** Parsing *)

(** X3. Whenever a parser gets past its length check, the user key it
    stores is the one the matching extraction function returns. *)
Theorem parsed_user_key_is_extracted
  (b : Slice) (r : ParsedInternalKey) (rmv : ParsedMVInternalKey) :
  (8 <= size b ->
     ExtractUserKey b = Some (user_key (snd (ParseInternalKey b r))))
  /\
  (16 <= size b ->
     MVExtractUserKey b = Some (mv_user_key (snd (ParseMVInternalKey b rmv)))).
Proof.
  split; intros Hb.
  - rewrite ParseInternalKey_long, ExtractUserKey_long by assumption. reflexivity.
  - rewrite ParseMVInternalKey_long, MVExtractUserKey_long by assumption. reflexivity.
Qed.

Lemma parsed_user_key_is_extracted_witness :
  ExtractUserKey (bytes "abc" ++ bytes "12345678")
  = Some (user_key (snd (ParseInternalKey (bytes "abc" ++ bytes "12345678")
                           (mkParsedInternalKey [] 0 0)))).
Proof.
  destruct (parsed_user_key_is_extracted (bytes "abc" ++ bytes "12345678")
              (mkParsedInternalKey [] 0 0) (mkParsedMVInternalKey [] 0 0 0))
    as [H _].
  apply H. vm_compute. discriminate.
Defined.

(** X5. Encoding what a parser stored gives back the parsed bytes, for
    every input that has the fixed suffix, whether the parser accepted
    its type byte or not. *)
Theorem parse_then_encode
  (b : Slice) (r : ParsedInternalKey) (rmv : ParsedMVInternalKey) :
  (8 <= size b -> AppendInternalKey [] (snd (ParseInternalKey b r)) = b)
  /\
  (16 <= size b -> AppendMVInternalKey [] (snd (ParseMVInternalKey b rmv)) = b).
Proof.
  split; intros Hb.
  - rewrite ParseInternalKey_long by assumption. cbn [snd].
    rewrite AppendInternalKey_eq. cbn [app user_key sequence type].
    rewrite Pack_unpack by apply tag_of_range.
    symmetry. now apply key_shape.
  - rewrite ParseMVInternalKey_long by assumption. cbn [snd].
    rewrite AppendMVInternalKey_eq.
    cbn [app mv_user_key mv_sequence mv_type valid_time].
    rewrite Pack_unpack by apply DecodeFixed64_range.
    symmetry. now apply mv_key_shape.
Qed.

Lemma parse_then_encode_witness :
  AppendInternalKey []
    (snd (ParseInternalKey (bytes "abc" ++ bytes "12345678")
            (mkParsedInternalKey [] 0 0)))
  = bytes "abc" ++ bytes "12345678".
Proof.
  destruct (parse_then_encode (bytes "abc" ++ bytes "12345678")
              (mkParsedInternalKey [] 0 0) (mkParsedMVInternalKey [] 0 0 0))
    as [H _].
  apply H. vm_compute. discriminate.
Defined.

(** X4. The parsers lose nothing: two inputs that have the fixed suffix
    and parse to the same fields are the same bytes. *)
Theorem parse_injective
  (b1 b2 : Slice) (r1 r2 : ParsedInternalKey) (m1 m2 : ParsedMVInternalKey) :
  (8 <= size b1 -> 8 <= size b2 ->
     snd (ParseInternalKey b1 r1) = snd (ParseInternalKey b2 r2) -> b1 = b2)
  /\
  (16 <= size b1 -> 16 <= size b2 ->
     snd (ParseMVInternalKey b1 m1) = snd (ParseMVInternalKey b2 m2) -> b1 = b2).
Proof.
  split; intros H1 H2 Heq.
  - rewrite !ParseInternalKey_long in Heq by assumption. cbn [snd] in Heq.
    injection Heq as Hu Hs Ht.
    rewrite (key_shape b1 H1), (key_shape b2 H2), Hu.
    f_equal. f_equal. apply unpack_inj; auto using tag_of_range.
  - rewrite !ParseMVInternalKey_long in Heq by assumption. cbn [snd] in Heq.
    injection Heq as Hu Hs Ht Hv.
    rewrite (mv_key_shape b1 H1), (mv_key_shape b2 H2), Hu, Hv.
    do 3 f_equal.
    apply unpack_inj; auto; apply DecodeFixed64_range.
Qed.

Lemma parse_injective_witness :
  bytes "abc" ++ coding.EncodeFixed64 1281 = AppendInternalKey []
    (mkParsedInternalKey (bytes "abc") 5 kTypeValue).
Proof.
  destruct (parse_injective
              (bytes "abc" ++ coding.EncodeFixed64 1281)
              (AppendInternalKey [] (mkParsedInternalKey (bytes "abc") 5 kTypeValue))
              (mkParsedInternalKey [] 0 0) (mkParsedInternalKey (bytes "z") 9 1)
              (mkParsedMVInternalKey [] 0 0 0) (mkParsedMVInternalKey [] 0 0 0))
    as [H _].
  apply H.
  - vm_compute. discriminate.
  - vm_compute. discriminate.
  - vm_compute. reflexivity.
Defined.

Lemma shiftr_8_bound (num : Z) :
  0 <= num < 2 ^ 64 -> 0 <= Z.shiftr num 8 <= kMaxSequenceNumber.
Proof.
  intros Hn. rewrite kMaxSequenceNumber_eq, Z.shiftr_div_pow2 by lia.
  change (2 ^ 8) with 256.
  assert (0 <= num / 256 < 2 ^ 56); [|lia].
  split; [apply Z.div_pos; lia|].
  apply Z.div_lt_upper_bound; [lia|].
  change (256 * 2 ^ 56) with (2 ^ 64). lia.
Qed.

(** X6. A key the parser accepts is a valid parsed key: its type is one
    of the two declared values, its sequence number is at most
    [kMaxSequenceNumber], and its encoding length is the length of the
    input; the same for the multi-version parser, whose valid time is a
    64-bit value. *)
Theorem accepted_key_is_valid
  (b : Slice) (r : ParsedInternalKey) (rmv : ParsedMVInternalKey) :
  (fst (ParseInternalKey b r) = true ->
     let p := snd (ParseInternalKey b r) in
     IsValueType (type p)
     /\ 0 <= sequence p <= kMaxSequenceNumber
     /\ InternalKeyEncodingLength p = size b)
  /\
  (fst (ParseMVInternalKey b rmv) = true ->
     let p := snd (ParseMVInternalKey b rmv) in
     IsValueType (mv_type p)
     /\ 0 <= mv_sequence p <= kMaxSequenceNumber
     /\ kMinValidTime <= valid_time p <= kMaxValidTime
     /\ MVInternalKeyEncodingLength p = size b).
Proof.
  assert (Hty : forall c, (Z.land c 255 <=? kTypeValue) = true ->
                  IsValueType (Z.land c 255)).
  { intros c Hc. apply Z.leb_le in Hc.
    assert (0 <= Z.land c 255) by (apply Z.land_nonneg; lia).
    unfold IsValueType, kTypeDeletion, kTypeValue in *. lia. }
  split; intros Hok p.
  - destruct (Z.lt_ge_cases (size b) 8) as [Hlt | Hge].
    { rewrite ParseInternalKey_short in Hok by assumption. discriminate. }
    subst p. split; [|split].
    + rewrite ParseInternalKey_long in * by assumption. cbn [fst snd type] in *.
      now apply Hty.
    + rewrite ParseInternalKey_long by assumption. cbn [snd sequence].
      apply shiftr_8_bound, tag_of_range.
    + rewrite ParseInternalKey_long by assumption. cbn [snd].
      unfold InternalKeyEncodingLength. cbn [user_key].
      rewrite size_slice_at; lia.
  - destruct (Z.lt_ge_cases (size b) 16) as [Hlt | Hge].
    { rewrite ParseMVInternalKey_short in Hok by assumption. discriminate. }
    subst p. split; [|split; [|split]].
    + rewrite ParseMVInternalKey_long in * by assumption. cbn [fst snd mv_type] in *.
      now apply Hty.
    + rewrite ParseMVInternalKey_long by assumption. cbn [snd mv_sequence].
      apply shiftr_8_bound, DecodeFixed64_range.
    + rewrite ParseMVInternalKey_long by assumption. cbn [snd valid_time].
      pose proof (DecodeFixed64_range (slice_at b (size b - 8) 8)) as Hr.
      unfold mv_valid_time_of, kMinValidTime, kMaxValidTime, UINT64_MAX. lia.
    + rewrite ParseMVInternalKey_long by assumption. cbn [snd].
      unfold MVInternalKeyEncodingLength. cbn [mv_user_key].
      rewrite size_slice_at; lia.
Qed.

Lemma accepted_key_is_valid_witness :
  let p := snd (ParseInternalKey (bytes "abc" ++ coding.EncodeFixed64 1281)
                  (mkParsedInternalKey [] 0 0)) in
  IsValueType (type p)
  /\ 0 <= sequence p <= kMaxSequenceNumber
  /\ InternalKeyEncodingLength p = size (bytes "abc" ++ coding.EncodeFixed64 1281).
Proof.
  destruct (accepted_key_is_valid (bytes "abc" ++ coding.EncodeFixed64 1281)
              (mkParsedInternalKey [] 0 0) (mkParsedMVInternalKey [] 0 0 0))
    as [H _].
  apply H. vm_compute. reflexivity.
Defined.

(** X7. A multi-version key without its valid time is an internal key
    with the same fields: on an input of at least 16 bytes, the plain
    parser applied to all but the last 8 bytes accepts exactly when the
    multi-version parser accepts the input, and stores the same user key,
    sequence and type. *)
Theorem mv_parse_without_valid_time
  (b : Slice) (r : ParsedInternalKey) (rmv : ParsedMVInternalKey) :
  16 <= size b ->
  let legacy := ParseInternalKey (slice_at b 0 (size b - 8)) r in
  let mv := ParseMVInternalKey b rmv in
  fst legacy = fst mv
  /\ user_key (snd legacy) = mv_user_key (snd mv)
  /\ sequence (snd legacy) = mv_sequence (snd mv)
  /\ type (snd legacy) = mv_type (snd mv).
Proof.
  intros Hb legacy mv. subst legacy mv.
  assert (Hp : slice_at b 0 (size b - 8)
               = slice_at b 0 (size b - 16) ++ coding.EncodeFixed64 (mv_tag_of b)).
  { rewrite (mv_key_shape b Hb) at 1. rewrite app_assoc.
    apply slice_at_prefix_eq. rewrite size_key, size_slice_at; lia. }
  rewrite Hp.
  rewrite ParseInternalKey_long
    by (rewrite size_key, size_slice_at; lia).
  rewrite ParseMVInternalKey_long by assumption.
  rewrite tag_of_key, user_of_key.
  rewrite wrap64_small by apply DecodeFixed64_range.
  cbn [fst snd user_key sequence type mv_user_key mv_sequence mv_type].
  repeat split.
Qed.

Lemma mv_parse_without_valid_time_witness :
  let b := AppendMVInternalKey []
             (mkParsedMVInternalKey (bytes "k") 10 kTypeDeletion 42) in
  let legacy := ParseInternalKey (slice_at b 0 (size b - 8))
                  (mkParsedInternalKey [] 0 0) in
  let mv := ParseMVInternalKey b (mkParsedMVInternalKey [] 0 0 0) in
  fst legacy = fst mv
  /\ user_key (snd legacy) = mv_user_key (snd mv)
  /\ sequence (snd legacy) = mv_sequence (snd mv)
  /\ type (snd legacy) = mv_type (snd mv).
Proof.
  apply (mv_parse_without_valid_time
           (AppendMVInternalKey []
              (mkParsedMVInternalKey (bytes "k") 10 kTypeDeletion 42))).
  vm_compute. discriminate.
Defined.

(** ** The owning key types, continued *)

Lemma negb_empty_false (l : list byte) : negb (empty l) = false <-> l = [].
Proof. destruct l; cbn; split; congruence. Qed.

(** X8. The same bytes decoded both ways name the same user key: for an
    input of 8 bytes or more, the [InternalKey] filled by [DecodeFromMV]
    and the [MVInternalKey] filled by [DecodeFrom] have the same
    [user_key()], a failed assertion on both sides below 16 bytes; from
    16 bytes on both decoders report success and the user key is the one
    [MVExtractUserKey] finds in the input. *)
Theorem decode_both_ways_same_user_key
  (k : InternalKey.t) (m : MVInternalKey.t) (b : Slice) :
  8 <= size b < 2 ^ 64 ->
  exists ok k' m',
    InternalKey.DecodeFromMV k b = Some (ok, k')
    /\ MVInternalKey.DecodeFrom m b = Some (true, m')
    /\ InternalKey.user_key k' = MVInternalKey.user_key m'
    /\ (16 <= size b ->
          ok = true /\ InternalKey.user_key k' = MVExtractUserKey b
          /\ InternalKey.user_key k' = Some (slice_at b 0 (size b - 16))).
Proof.
  intros Hb.
  rewrite InternalKey_DecodeFromMV_eq by assumption.
  rewrite MVInternalKey_DecodeFrom_eq.
  exists (negb (size b =? 8)), (InternalKey.mk (slice_at b 0 (size b - 8))),
         (MVInternalKey.mk b).
  assert (Hne : negb (empty b) = true).
  { destruct b; [cbn in Hb; lia | reflexivity]. }
  rewrite Hne.
  unfold InternalKey.user_key, MVInternalKey.user_key.
  cbn [InternalKey.rep_ MVInternalKey.rep_].
  assert (Hsz : size (slice_at b 0 (size b - 8)) = size b - 8)
    by (apply size_slice_at; lia).
  split; [reflexivity | split; [reflexivity|]].
  destruct (Z.lt_ge_cases (size b) 16) as [Hlt | Hge].
  - rewrite ExtractUserKey_short, MVExtractUserKey_short by lia.
    split; [reflexivity | lia].
  - assert (Hu : ExtractUserKey (slice_at b 0 (size b - 8)) = MVExtractUserKey b).
    { rewrite (mv_key_shape b Hge) at 1 3.
      rewrite MVExtractUserKey_key.
      replace (slice_at _ 0 (size b - 8))
        with (slice_at b 0 (size b - 16) ++ coding.EncodeFixed64 (mv_tag_of b)).
      - apply ExtractUserKey_key.
      - symmetry. rewrite app_assoc. apply slice_at_prefix_eq.
        rewrite size_key, size_slice_at; lia. }
    split; [exact Hu|]. intros _. split; [|split; [exact Hu|]].
    + destruct (Z.eqb_spec (size b) 8); [lia | reflexivity].
    + rewrite Hu. now apply MVExtractUserKey_long.
Qed.

Lemma decode_both_ways_same_user_key_witness :
  exists ok k' m',
    InternalKey.DecodeFromMV InternalKey.new
      (bytes "k" ++ bytes "12345678" ++ bytes "abcdefgh") = Some (ok, k')
    /\ MVInternalKey.DecodeFrom MVInternalKey.new
         (bytes "k" ++ bytes "12345678" ++ bytes "abcdefgh") = Some (true, m')
    /\ InternalKey.user_key k' = MVInternalKey.user_key m'.
Proof.
  destruct (decode_both_ways_same_user_key InternalKey.new MVInternalKey.new
              (bytes "k" ++ bytes "12345678" ++ bytes "abcdefgh"))
    as (ok & k' & m' & H1 & H2 & H3 & _).
  - vm_compute. split; [discriminate | reflexivity].
  - exists ok, k', m'. split; [exact H1 | split; [exact H2 | exact H3]].
Defined.

(** X9. [DecodeFrom] and [Encode] round trip: [DecodeFrom] reports
    failure exactly on the empty input; after a success [Encode] returns
    the input bytes, after a failure the key is unset and [Encode] trips
    its assertion.  For both owning types. *)
Theorem decode_from_then_encode
  (k : InternalKey.t) (m : MVInternalKey.t) (s : Slice) :
  (exists ok k',
     InternalKey.DecodeFrom k s = Some (ok, k')
     /\ (ok = false <-> s = [])
     /\ InternalKey.Encode k' = (if ok then Some s else None))
  /\
  (exists ok m',
     MVInternalKey.DecodeFrom m s = Some (ok, m')
     /\ (ok = false <-> s = [])
     /\ MVInternalKey.Encode m' = (if ok then Some s else None)).
Proof.
  split.
  - rewrite InternalKey_DecodeFrom_eq. eexists _, _.
    split; [reflexivity|]. split; [apply negb_empty_false|].
    unfold InternalKey.Encode. cbn [InternalKey.rep_]. now destruct (empty s).
  - rewrite MVInternalKey_DecodeFrom_eq. eexists _, _.
    split; [reflexivity|]. split; [apply negb_empty_false|].
    unfold MVInternalKey.Encode. cbn [MVInternalKey.rep_]. now destruct (empty s).
Qed.

(** X10. A successful [DecodeFrom] does not make [user_key()] safe: after
    [DecodeFrom] of [s], [user_key()] trips the assertion of
    [ExtractUserKey] exactly when [s] has fewer than 8 bytes (16 for the
    multi-version type), so inputs of 1 to 7 bytes (1 to 15) are accepted
    and yet have no user key. *)
Theorem decode_from_user_key_defined
  (k : InternalKey.t) (m : MVInternalKey.t) (s : Slice) :
  (exists ok k',
     InternalKey.DecodeFrom k s = Some (ok, k')
     /\ (InternalKey.user_key k' = None <-> size s < 8)
     /\ (0 < size s < 8 -> ok = true /\ InternalKey.user_key k' = None))
  /\
  (exists ok m',
     MVInternalKey.DecodeFrom m s = Some (ok, m')
     /\ (MVInternalKey.user_key m' = None <-> size s < 16)
     /\ (0 < size s < 16 -> ok = true /\ MVInternalKey.user_key m' = None)).
Proof.
  assert (Hne : 0 < size s -> negb (empty s) = true).
  { destruct s; [cbn; lia | reflexivity]. }
  split.
  - rewrite InternalKey_DecodeFrom_eq. eexists _, _.
    split; [reflexivity|].
    unfold InternalKey.user_key. cbn [InternalKey.rep_].
    assert (Hiff : ExtractUserKey s = None <-> size s < 8).
    { split.
      - intros H. destruct (Z.lt_ge_cases (size s) 8) as [Hlt | Hge]; [exact Hlt|].
        rewrite ExtractUserKey_long in H by assumption. discriminate.
      - apply ExtractUserKey_short. }
    split; [exact Hiff|]. intros [H0 H8]. split; [now apply Hne | now apply Hiff].
  - rewrite MVInternalKey_DecodeFrom_eq. eexists _, _.
    split; [reflexivity|].
    unfold MVInternalKey.user_key. cbn [MVInternalKey.rep_].
    assert (Hiff : MVExtractUserKey s = None <-> size s < 16).
    { split.
      - intros H. destruct (Z.lt_ge_cases (size s) 16) as [Hlt | Hge]; [exact Hlt|].
        rewrite MVExtractUserKey_long in H by assumption. discriminate.
      - apply MVExtractUserKey_short. }
    split; [exact Hiff|]. intros [H0 H8]. split; [now apply Hne | now apply Hiff].
Qed.

Lemma decode_from_user_key_defined_witness :
  exists ok k',
    InternalKey.DecodeFrom InternalKey.new (bytes "abc") = Some (ok, k')
    /\ ok = true /\ InternalKey.user_key k' = None.
Proof.
  destruct (decode_from_user_key_defined InternalKey.new MVInternalKey.new
              (bytes "abc")) as [(ok & k' & H1 & _ & H3) _].
  exists ok, k'. split; [exact H1|]. apply H3.
  vm_compute. split; reflexivity.
Defined.

(** X11. A key built from a parsed key is always set: for every user key,
    sequence and type, with no condition on their ranges, [Encode] of the
    constructed key returns the user key followed by 8 bytes and
    [user_key()] returns the user key given; [SetFrom] gives the same
    whatever the key held before; [Clear] leaves a key on which both
    accessors trip their assertions.  Likewise for the multi-version
    type, with 16 bytes. *)
Theorem constructed_key_accessors
  (k : InternalKey.t) (m : MVInternalKey.t)
  (p : ParsedInternalKey) (q : ParsedMVInternalKey) :
  (InternalKey.SetFrom k p = InternalKey.make (user_key p) (sequence p) (type p)
   /\ InternalKey.Encode (InternalKey.SetFrom k p) = Some (AppendInternalKey [] p)
   /\ InternalKey.user_key (InternalKey.SetFrom k p) = Some (user_key p)
   /\ size (InternalKey.rep_ (InternalKey.SetFrom k p)) = size (user_key p) + 8
   /\ InternalKey.Encode (InternalKey.Clear k) = None
   /\ InternalKey.user_key (InternalKey.Clear k) = None)
  /\
  (MVInternalKey.SetFrom m q
     = MVInternalKey.make (mv_user_key q) (mv_sequence q) (mv_type q) (valid_time q)
   /\ MVInternalKey.Encode (MVInternalKey.SetFrom m q) = Some (AppendMVInternalKey [] q)
   /\ MVInternalKey.user_key (MVInternalKey.SetFrom m q) = Some (mv_user_key q)
   /\ size (MVInternalKey.rep_ (MVInternalKey.SetFrom m q)) = size (mv_user_key q) + 16
   /\ MVInternalKey.Encode (MVInternalKey.Clear m) = None
   /\ MVInternalKey.user_key (MVInternalKey.Clear m) = None).
Proof.
  split.
  - destruct p as [u s t].
    unfold InternalKey.SetFrom, InternalKey.make, InternalKey.Encode,
      InternalKey.user_key, InternalKey.Clear.
    cbn [InternalKey.rep_ user_key sequence type].
    split; [reflexivity|]. split; [|split; [|split; [|split; reflexivity]]].
    + rewrite AppendInternalKey_eq. cbn [app user_key].
      destruct (u ++ _) eqn:E; [|reflexivity].
      apply (f_equal size) in E. rewrite size_key in E.
      pose proof (size_nonneg u). cbn in E. lia.
    + apply (ExtractUserKey_encoded (mkParsedInternalKey u s t)).
    + rewrite AppendInternalKey_eq. cbn [app user_key]. apply size_key.
  - destruct q as [u s t vt].
    unfold MVInternalKey.SetFrom, MVInternalKey.make, MVInternalKey.Encode,
      MVInternalKey.user_key, MVInternalKey.Clear.
    cbn [MVInternalKey.rep_ mv_user_key mv_sequence mv_type valid_time].
    split; [reflexivity|]. split; [|split; [|split; [|split; reflexivity]]].
    + rewrite AppendMVInternalKey_eq. cbn [app mv_user_key].
      destruct (u ++ _) eqn:E; [|reflexivity].
      apply (f_equal size) in E. rewrite size_mv_key in E.
      pose proof (size_nonneg u). cbn in E. lia.
    + apply (MVExtractUserKey_encoded (mkParsedMVInternalKey u s t vt)).
    + rewrite AppendMVInternalKey_eq. cbn [app mv_user_key]. apply size_mv_key.
Qed.

(** X12. The encoders append: the output buffer keeps its content and
    grows by the standalone encoding of the key, whose length is what
    [InternalKeyEncodingLength] (respectively
    [MVInternalKeyEncodingLength]) announces. *)
Theorem append_grows_by_encoding_length
  (result : list byte) (p : ParsedInternalKey) (q : ParsedMVInternalKey) :
  (AppendInternalKey result p = result ++ AppendInternalKey [] p
   /\ size (AppendInternalKey [] p) = InternalKeyEncodingLength p
   /\ size (AppendInternalKey result p) = size result + InternalKeyEncodingLength p)
  /\
  (AppendMVInternalKey result q = result ++ AppendMVInternalKey [] q
   /\ size (AppendMVInternalKey [] q) = MVInternalKeyEncodingLength q
   /\ size (AppendMVInternalKey result q)
      = size result + MVInternalKeyEncodingLength q).
Proof.
  unfold InternalKeyEncodingLength, MVInternalKeyEncodingLength.
  split.
  - rewrite !AppendInternalKey_eq. cbn [app].
    rewrite !size_app, !size_EncodeFixed64.
    split; [reflexivity | split; lia].
  - rewrite !AppendMVInternalKey_eq. cbn [app].
    rewrite !size_app, !size_EncodeFixed64.
    split; [reflexivity | split; lia].
Qed.

(** ** Views of a lookup key *)

Lemma firstn_plus {A : Type} (n1 n2 : nat) (l : list A) :
  firstn (n1 + n2) l = firstn n1 l ++ firstn n2 (skipn n1 l).
Proof.
  revert l. induction n1 as [|n1 IH]; intros l; [reflexivity|].
  destruct l as [|x l]; cbn [Nat.add firstn skipn app].
  - now rewrite firstn_nil.
  - now rewrite IH.
Qed.

Lemma slice_at_plus (b : list byte) (off n1 n2 : Z) :
  0 <= off -> 0 <= n1 -> 0 <= n2 ->
  slice_at b off (n1 + n2) = slice_at b off n1 ++ slice_at b (off + n1) n2.
Proof.
  intros Ho H1 H2. unfold slice_at.
  rewrite !Z2Nat.inj_add by lia. rewrite firstn_plus.
  f_equal. rewrite skipn_skipn. do 2 f_equal. lia.
Qed.

Lemma slice_at_slice_at (b : list byte) (off n off' n' : Z) :
  0 <= off -> 0 <= off' -> 0 <= n' -> off' + n' <= n ->
  slice_at (slice_at b off n) off' n' = slice_at b (off + off') n'.
Proof.
  intros Ho Ho' Hn' Hle. unfold slice_at.
  rewrite skipn_firstn_comm, firstn_firstn, skipn_skipn.
  rewrite Nat.min_l by lia. do 2 f_equal. lia.
Qed.

(** X14. The views of a lookup key agree with the codec, whatever built
    the key: if the three pointers are in order inside the buffer
    ([start_ <= kstart_], [kstart_ + 8 <= end_]), the memtable key is the
    bytes between [start_] and [kstart_] followed by the internal key,
    the internal key is the user key followed by the last 8 bytes, and
    [ExtractUserKey] and [ParseInternalKey] on the internal key find the
    user key the [user_key()] view returns. *)
Theorem lookup_views_agree_with_codec (k : LookupKey.t) (r : ParsedInternalKey) :
  0 <= LookupKey.start_ k <= LookupKey.kstart_ k ->
  LookupKey.kstart_ k + 8 <= LookupKey.end_ k ->
  LookupKey.end_ k <= size (LookupKey.buf k) ->
  LookupKey.memtable_key k
    = slice_at (LookupKey.buf k) (LookupKey.start_ k)
        (LookupKey.kstart_ k - LookupKey.start_ k)
      ++ LookupKey.internal_key k
  /\ LookupKey.internal_key k
     = LookupKey.user_key k
       ++ slice_at (LookupKey.buf k) (LookupKey.end_ k - 8) 8
  /\ size (LookupKey.internal_key k) = size (LookupKey.user_key k) + 8
  /\ ExtractUserKey (LookupKey.internal_key k) = Some (LookupKey.user_key k)
  /\ user_key (snd (ParseInternalKey (LookupKey.internal_key k) r))
     = LookupKey.user_key k.
Proof.
  destruct k as [buf st start kstart end_].
  cbn [LookupKey.start_ LookupKey.kstart_ LookupKey.end_ LookupKey.buf].
  intros Hs Hk He.
  unfold LookupKey.memtable_key, LookupKey.internal_key, LookupKey.user_key.
  cbn [LookupKey.start_ LookupKey.kstart_ LookupKey.end_ LookupKey.buf].
  assert (Hik : size (slice_at buf kstart (end_ - kstart)) = end_ - kstart)
    by (apply size_slice_at; lia).
  assert (Huk : size (slice_at buf kstart (end_ - kstart - 8)) = end_ - kstart - 8)
    by (apply size_slice_at; lia).
  assert (Hex : slice_at (slice_at buf kstart (end_ - kstart)) 0
                  (size (slice_at buf kstart (end_ - kstart)) - 8)
                = slice_at buf kstart (end_ - kstart - 8)).
  { rewrite Hik, slice_at_slice_at by lia. f_equal. lia. }
  split; [|split; [|split; [|split]]].
  - replace (end_ - start) with ((kstart - start) + (end_ - kstart)) by lia.
    rewrite slice_at_plus by lia. do 2 f_equal. lia.
  - replace (end_ - kstart) with ((end_ - kstart - 8) + 8) at 1 by lia.
    rewrite slice_at_plus by lia. do 2 f_equal. lia.
  - rewrite Hik, Huk. lia.
  - rewrite ExtractUserKey_long by lia. now rewrite Hex.
  - rewrite ParseInternalKey_long by lia. cbn [snd user_key]. exact Hex.
Qed.

Lemma lookup_views_agree_with_codec_witness :
  ExtractUserKey
    (LookupKey.internal_key
       (LookupKey.mk (bytes "??xyz12345678!") Inline 1 2 13))
  = Some (LookupKey.user_key
            (LookupKey.mk (bytes "??xyz12345678!") Inline 1 2 13)).
Proof.
  apply (lookup_views_agree_with_codec
           (LookupKey.mk (bytes "??xyz12345678!") Inline 1 2 13)
           (mkParsedInternalKey [] 0 0)).
  - cbn. lia.
  - cbn. lia.
  - vm_compute. discriminate.
Defined.

(** X15. The views of a multi-version lookup key agree with the codec: if
    the pointers are in order inside the buffer ([start_ <= kstart_],
    [kstart_ + 16 <= end_]), [MVExtractUserKey] on the internal key finds
    the [user_key()] view, and [ParseMVInternalKey] on the internal key
    stores that user key and the valid time the [valid_time()] view
    returns, which is a 64-bit value. *)
Theorem mv_lookup_views_agree_with_codec
  (k : MVLookupKey.t) (r : ParsedMVInternalKey) :
  0 <= MVLookupKey.start_ k <= MVLookupKey.kstart_ k ->
  MVLookupKey.kstart_ k + 16 <= MVLookupKey.end_ k ->
  MVLookupKey.end_ k <= size (MVLookupKey.buf k) ->
  MVLookupKey.memtable_key k
    = slice_at (MVLookupKey.buf k) (MVLookupKey.start_ k)
        (MVLookupKey.kstart_ k - MVLookupKey.start_ k)
      ++ MVLookupKey.internal_key k
  /\ size (MVLookupKey.internal_key k) = size (MVLookupKey.user_key k) + 16
  /\ MVExtractUserKey (MVLookupKey.internal_key k) = Some (MVLookupKey.user_key k)
  /\ mv_user_key (snd (ParseMVInternalKey (MVLookupKey.internal_key k) r))
     = MVLookupKey.user_key k
  /\ valid_time (snd (ParseMVInternalKey (MVLookupKey.internal_key k) r))
     = MVLookupKey.valid_time k
  /\ kMinValidTime <= MVLookupKey.valid_time k <= kMaxValidTime.
Proof.
  destruct k as [buf st start kstart end_].
  cbn [MVLookupKey.start_ MVLookupKey.kstart_ MVLookupKey.end_ MVLookupKey.buf].
  intros Hs Hk He.
  unfold MVLookupKey.memtable_key, MVLookupKey.internal_key,
    MVLookupKey.user_key, MVLookupKey.valid_time.
  cbn [MVLookupKey.start_ MVLookupKey.kstart_ MVLookupKey.end_ MVLookupKey.buf].
  assert (Hik : size (slice_at buf kstart (end_ - kstart)) = end_ - kstart)
    by (apply size_slice_at; lia).
  assert (Huk : size (slice_at buf kstart (end_ - kstart - 16)) = end_ - kstart - 16)
    by (apply size_slice_at; lia).
  assert (Hex : slice_at (slice_at buf kstart (end_ - kstart)) 0
                  (size (slice_at buf kstart (end_ - kstart)) - 16)
                = slice_at buf kstart (end_ - kstart - 16)).
  { rewrite Hik, slice_at_slice_at by lia. f_equal. lia. }
  split; [|split; [|split; [|split; [|split]]]].
  - replace (end_ - start) with ((kstart - start) + (end_ - kstart)) by lia.
    rewrite slice_at_plus by lia. do 2 f_equal. lia.
  - rewrite Hik, Huk. lia.
  - rewrite MVExtractUserKey_long by lia. now rewrite Hex.
  - rewrite ParseMVInternalKey_long by lia. cbn [snd mv_user_key]. exact Hex.
  - rewrite ParseMVInternalKey_long by lia. cbn [snd valid_time].
    unfold mv_valid_time_of. rewrite Hik, slice_at_slice_at by lia.
    do 2 f_equal. lia.
  - pose proof (DecodeFixed64_range (slice_at buf (end_ - 8) 8)).
    unfold kMinValidTime, kMaxValidTime, UINT64_MAX. lia.
Qed.

Lemma mv_lookup_views_agree_with_codec_witness :
  MVExtractUserKey
    (MVLookupKey.internal_key
       (MVLookupKey.mk (bytes "??k12345678abcdefgh") Inline 1 2 19))
  = Some (MVLookupKey.user_key
            (MVLookupKey.mk (bytes "??k12345678abcdefgh") Inline 1 2 19)).
Proof.
  apply (mv_lookup_views_agree_with_codec
           (MVLookupKey.mk (bytes "??k12345678abcdefgh") Inline 1 2 19)
           (mkParsedMVInternalKey [] 0 0 0)).
  - cbn. lia.
  - cbn. lia.
  - vm_compute. discriminate.
Defined.

(** ** Lookup keys built by the constructors *)

Lemma LookupKey_internal_key_eq (mem : list byte) (u : Slice) (s : SequenceNumber) :
  LookupKey.internal_key (LookupKey.make mem u s)
  = u ++ coding.EncodeFixed64 (PackSequenceAndType s kValueTypeForSeek).
Proof.
  unfold LookupKey.internal_key, LookupKey.make.
  cbn [LookupKey.buf LookupKey.kstart_ LookupKey.end_].
  set (V := coding.EncodeVarint32 _). set (T := coding.EncodeFixed64 _).
  set (S := skipn _ mem).
  replace (((V ++ u) ++ T) ++ S) with (V ++ (u ++ T) ++ S)
    by now rewrite <- !app_assoc.
  apply slice_at_middle_eq; [reflexivity|]. rewrite !size_app. lia.
Qed.

Lemma MVLookupKey_internal_key_eq
  (mem : list byte) (u : Slice) (s : SequenceNumber) (vt : ValidTime) :
  MVLookupKey.internal_key (MVLookupKey.make mem u s vt)
  = u ++ coding.EncodeFixed64 (PackSequenceAndType s kValueTypeForSeek)
      ++ coding.EncodeFixed64 vt.
Proof.
  unfold MVLookupKey.internal_key, MVLookupKey.make.
  cbn [MVLookupKey.buf MVLookupKey.kstart_ MVLookupKey.end_].
  set (W := coding.EncodeVarint32 _). set (T := coding.EncodeFixed64 (PackSequenceAndType _ _)).
  set (E := coding.EncodeFixed64 vt). set (S := skipn _ mem).
  replace ((((W ++ u) ++ T) ++ E) ++ S) with (W ++ (u ++ T ++ E) ++ S)
    by now rewrite <- !app_assoc.
  apply slice_at_middle_eq; [reflexivity|]. rewrite !size_app. lia.
Qed.

(** X16. The internal key of a lookup key parses: for a sequence within
    [0, kMaxSequenceNumber], [ParseInternalKey] accepts the internal key
    view and returns the user key and sequence given, with the type used
    for seeks; the multi-version parser on the multi-version lookup key
    returns the valid time given as well. *)
Theorem lookup_internal_key_parses
  (mem : list byte) (u : Slice) (s : SequenceNumber) (vt : ValidTime)
  (r : ParsedInternalKey) (rmv : ParsedMVInternalKey) :
  0 <= s <= kMaxSequenceNumber -> kMinValidTime <= vt <= kMaxValidTime ->
  ParseInternalKey (LookupKey.internal_key (LookupKey.make mem u s)) r
    = (true, mkParsedInternalKey u s kValueTypeForSeek)
  /\
  ParseMVInternalKey (MVLookupKey.internal_key (MVLookupKey.make mem u s vt)) rmv
    = (true, mkParsedMVInternalKey u s kValueTypeForSeek vt).
Proof.
  intros Hs Hvt.
  assert (Hb : 0 <= kValueTypeForSeek < 256) by (cbv; split; congruence).
  pose proof (size_nonneg u) as Hu.
  split.
  - rewrite LookupKey_internal_key_eq.
    rewrite ParseInternalKey_long by (rewrite size_key; lia).
    rewrite tag_of_key, user_of_key, wrap64_Pack.
    rewrite Pack_type_byte, Pack_sequence by assumption. reflexivity.
  - rewrite MVLookupKey_internal_key_eq.
    rewrite ParseMVInternalKey_long by (rewrite size_mv_key; lia).
    rewrite mv_tag_of_key, mv_user_of_key, mv_valid_time_of_key, wrap64_Pack.
    rewrite Pack_type_byte, Pack_sequence by assumption.
    rewrite wrap64_small
      by (unfold kMinValidTime, kMaxValidTime, UINT64_MAX in Hvt; lia).
    reflexivity.
Qed.

Lemma lookup_internal_key_parses_witness :
  ParseInternalKey
    (LookupKey.internal_key (LookupKey.make (repeat xff 200) (bytes "xyz") 3))
    (mkParsedInternalKey [] 0 0)
  = (true, mkParsedInternalKey (bytes "xyz") 3 kValueTypeForSeek).
Proof.
  apply (lookup_internal_key_parses (repeat xff 200) (bytes "xyz") 3 42
           (mkParsedInternalKey [] 0 0) (mkParsedMVInternalKey [] 0 0 0)).
  - vm_compute. split; discriminate.
  - vm_compute. split; discriminate.
Defined.

(** X13. Why the type for seeks is the highest one: for one user key [u]
    (a tie under the user comparator), the internal key of the lookup key
    for sequence [s] never sorts after an entry of [u] with a sequence
    [s' <= s], whatever the type of the entry, ties only with the entry
    of sequence [s] and type [kValueTypeForSeek], and sorts after every
    entry with a sequence [s' > s]. *)
Theorem lookup_key_seeks_newest_visible
  (U : Comparator) (mem : list byte) (u : Slice) (s s' : SequenceNumber)
  (t : ValueType) :
  Compare U u u = 0 ->
  0 <= s <= kMaxSequenceNumber -> 0 <= s' <= kMaxSequenceNumber ->
  IsValueType t ->
  exists c,
    InternalKeyComparator.Compare U
      (LookupKey.internal_key (LookupKey.make mem u s))
      (AppendInternalKey [] (mkParsedInternalKey u s' t)) = Some c
    /\ (s' <= s -> c <= 0)
    /\ (s < s' -> 0 < c)
    /\ (c = 0 <-> s' = s /\ t = kValueTypeForSeek).
Proof.
  intros HU Hs Hs' Ht.
  rewrite LookupKey_internal_key_eq, AppendInternalKey_eq.
  cbn [app user_key sequence type].
  rewrite (Compare_unfold U _ _ u u) by apply ExtractUserKey_key.
  rewrite HU. cbn [Z.eqb]. rewrite !tag_of_key, !wrap64_Pack.
  assert (Hb : 0 <= kValueTypeForSeek < 256) by (cbv; split; congruence).
  pose proof (IsValueType_byte t Ht) as Htb.
  rewrite !Pack_small by assumption.
  assert (Hk : kValueTypeForSeek = 1) by reflexivity.
  assert (Ht1 : t = 0 \/ t = 1) by exact Ht.
  destruct (Z.gtb_spec (kValueTypeForSeek + 256 * s) (t + 256 * s')) as [Hgt | Hle].
  - exists (-1). split; [reflexivity|]. repeat split; try lia.
  - destruct (Z.ltb_spec (kValueTypeForSeek + 256 * s) (t + 256 * s')) as [Hlt | Hge].
    + exists 1. split; [reflexivity|]. repeat split; try lia.
    + exists 0. split; [reflexivity|]. repeat split; try lia.
Qed.

Lemma lookup_key_seeks_newest_visible_witness :
  exists c,
    InternalKeyComparator.Compare BytewiseComparator
      (LookupKey.internal_key (LookupKey.make (repeat xff 200) (bytes "xyz") 3))
      (AppendInternalKey [] (mkParsedInternalKey (bytes "xyz") 2 kTypeValue))
    = Some c
    /\ (2 <= 3 -> c <= 0).
Proof.
  destruct (lookup_key_seeks_newest_visible BytewiseComparator (repeat xff 200)
              (bytes "xyz") 3 2 kTypeValue) as (c & Hc & Hle & _).
  - vm_compute. reflexivity.
  - vm_compute. split; discriminate.
  - vm_compute. split; discriminate.
  - right. reflexivity.
  - exists c. split; [exact Hc | exact Hle].
Defined.

(** ** The sequence number bound *)

(** X17. [kMaxSequenceNumber] is exactly the largest sequence number that
    can be packed with a type byte into 64 bits: for a non-negative
    sequence and a type byte, [(seq << 8) | t] fits in 64 bits if and
    only if [seq <= kMaxSequenceNumber], and it is then that the packed
    tag gives the sequence and the type back. *)
Theorem kMaxSequenceNumber_is_packing_bound (seq t : Z) :
  0 <= seq -> 0 <= t < 256 ->
  (Z.lor (Z.shiftl seq 8) t <= UINT64_MAX <-> seq <= kMaxSequenceNumber)
  /\ (seq <= kMaxSequenceNumber ->
        Z.shiftr (PackSequenceAndType seq t) 8 = seq
        /\ Z.land (PackSequenceAndType seq t) 255 = t)
  /\ (kMaxSequenceNumber < seq ->
        Z.shiftr (PackSequenceAndType seq t) 8 <> seq).
Proof.
  intros Hs Ht. rewrite lor_tag by assumption.
  rewrite kMaxSequenceNumber_eq. unfold UINT64_MAX.
  change (2 ^ 64) with (256 * 2 ^ 56).
  split; [lia|]. split.
  - intros Hle. split.
    + apply Pack_sequence; [rewrite kMaxSequenceNumber_eq; lia | exact Ht].
    + now apply Pack_type_byte.
  - intros Hgt Heq.
    pose proof (shiftr_8_bound (PackSequenceAndType seq t) (Pack_range seq t)) as Hb.
    rewrite Heq, kMaxSequenceNumber_eq in Hb. lia.
Qed.

Lemma kMaxSequenceNumber_is_packing_bound_witness :
  Z.shiftr (PackSequenceAndType kMaxSequenceNumber kTypeValue) 8
    = kMaxSequenceNumber
  /\ Z.land (PackSequenceAndType kMaxSequenceNumber kTypeValue) 255 = kTypeValue.
Proof.
  destruct (kMaxSequenceNumber_is_packing_bound kMaxSequenceNumber kTypeValue)
    as (_ & H & _).
  - vm_compute. discriminate.
  - vm_compute. split; [discriminate | reflexivity].
  - apply H. vm_compute. discriminate.
Defined.

(** ** Comparing owning keys *)

Lemma byte_to_Z_inj (x y : byte) : coding.byte_to_Z x = coding.byte_to_Z y -> x = y.
Proof.
  intros H. rewrite <- (byte_of_to_Z x), <- (byte_of_to_Z y). now rewrite H.
Qed.

Lemma bytewise_compare_antisym (x y : Slice) :
  bytewise_compare y x = - bytewise_compare x y.
Proof.
  revert y. induction x as [|a x IH]; intros [|b y]; cbn [bytewise_compare];
    try reflexivity.
  destruct (Z.ltb_spec (coding.byte_to_Z a) (coding.byte_to_Z b));
    destruct (Z.ltb_spec (coding.byte_to_Z b) (coding.byte_to_Z a));
    try lia; try reflexivity.
  apply IH.
Qed.

Lemma bytewise_compare_zero (x y : Slice) : bytewise_compare x y = 0 -> x = y.
Proof.
  revert y. induction x as [|a x IH]; intros [|b y]; cbn [bytewise_compare];
    try reflexivity; try discriminate.
  destruct (Z.ltb_spec (coding.byte_to_Z a) (coding.byte_to_Z b)); [discriminate|].
  destruct (Z.ltb_spec (coding.byte_to_Z b) (coding.byte_to_Z a)); [discriminate|].
  intros Hz. f_equal; [apply byte_to_Z_inj; lia | now apply IH].
Qed.

Lemma Encode_Some (a : InternalKey.t) (ea : Slice) :
  InternalKey.Encode a = Some ea -> ea = InternalKey.rep_ a.
Proof.
  unfold InternalKey.Encode. destruct (empty _); [discriminate|].
  now intros [= <-].
Qed.

Lemma Compare_Some_inv (U : Comparator) (a b : Slice) (c : Z) :
  InternalKeyComparator.Compare U a b = Some c ->
  8 <= size a /\ 8 <= size b.
Proof.
  intros H. unfold InternalKeyComparator.Compare in H.
  destruct (Z.lt_ge_cases (size a) 8) as [Ha | Ha].
  { rewrite ExtractUserKey_short in H by assumption. discriminate. }
  destruct (Z.lt_ge_cases (size b) 8) as [Hb | Hb].
  { rewrite (ExtractUserKey_short b) in H by assumption.
    destruct (ExtractUserKey a); discriminate. }
  split; assumption.
Qed.

Lemma Compare_antisym (U : Comparator) (a b : Slice) (c : Z) :
  (forall x y, Compare U y x = - Compare U x y) ->
  InternalKeyComparator.Compare U a b = Some c ->
  InternalKeyComparator.Compare U b a = Some (- c).
Proof.
  intros HU H. destruct (Compare_Some_inv U a b c H) as [Ha Hb].
  rewrite (Compare_unfold U a b _ _ (ExtractUserKey_long a Ha)
             (ExtractUserKey_long b Hb)) in H.
  rewrite (Compare_unfold U b a _ _ (ExtractUserKey_long b Hb)
             (ExtractUserKey_long a Ha)).
  rewrite (HU (slice_at a 0 (size a - 8)) (slice_at b 0 (size b - 8))).
  remember (Compare U (slice_at a 0 (size a - 8)) (slice_at b 0 (size b - 8)))
    as r eqn:Er.
  clear Er. destruct (Z.eqb_spec r 0) as [Hr | Hr].
  - subst r. cbn [Z.opp Z.eqb].
    destruct (Z.gtb_spec (tag_of a) (tag_of b));
      destruct (Z.ltb_spec (tag_of a) (tag_of b));
      destruct (Z.gtb_spec (tag_of b) (tag_of a));
      destruct (Z.ltb_spec (tag_of b) (tag_of a));
      try lia; injection H as <-; reflexivity.
  - destruct (Z.eqb_spec (- r) 0); [lia|]. injection H as <-. reflexivity.
Qed.

(** X18. Comparing two owning keys trips the assertion of [Encode] when
    either key is unset.  When the user comparator ties only a user key
    with itself, the comparison returns 0 only for two keys that hold the
    same bytes. *)
Theorem compare_keys_zero_same_key (U : Comparator) (a b : InternalKey.t) :
  (InternalKey.rep_ a = [] \/ InternalKey.rep_ b = [] ->
     InternalKeyComparator.CompareKeys U a b = None)
  /\
  ((forall x y, Compare U x y = 0 -> x = y) ->
     InternalKeyComparator.CompareKeys U a b = Some 0 -> a = b).
Proof.
  split.
  - unfold InternalKeyComparator.CompareKeys, InternalKey.Encode.
    intros [H | H]; rewrite H; cbn [empty bind]; [reflexivity|].
    destruct (empty _); reflexivity.
  - intros HU H. unfold InternalKeyComparator.CompareKeys in H.
    destruct (InternalKey.Encode a) as [ea|] eqn:Ea; [|discriminate].
    destruct (InternalKey.Encode b) as [eb|] eqn:Eb; [|discriminate].
    cbn [bind] in H.
    apply Encode_Some in Ea, Eb.
    destruct (Compare_Some_inv U ea eb 0 H) as [Ha Hb].
    rewrite (Compare_unfold U ea eb _ _ (ExtractUserKey_long ea Ha)
               (ExtractUserKey_long eb Hb)) in H.
    assert (Heq : ea = eb).
    { destruct (Z.eqb_spec (Compare U (slice_at ea 0 (size ea - 8))
                              (slice_at eb 0 (size eb - 8))) 0) as [Hr | Hr].
      - apply HU in Hr.
        destruct (Z.gtb_spec (tag_of ea) (tag_of eb)); [discriminate|].
        destruct (Z.ltb_spec (tag_of ea) (tag_of eb)); [discriminate|].
        rewrite (key_shape ea Ha), (key_shape eb Hb), Hr.
        do 2 f_equal. lia.
      - injection H as Hc. contradiction. }
    destruct a as [ra], b as [rb]. cbn [InternalKey.rep_] in *. congruence.
Qed.

Lemma compare_keys_zero_same_key_witness :
  InternalKey.make (bytes "k") 7 kTypeValue
  = InternalKey.mk (bytes "k" ++ coding.EncodeFixed64 1793).
Proof.
  destruct (compare_keys_zero_same_key BytewiseComparator
              (InternalKey.make (bytes "k") 7 kTypeValue)
              (InternalKey.mk (bytes "k" ++ coding.EncodeFixed64 1793)))
    as [_ H].
  apply H.
  - exact bytewise_compare_zero.
  - vm_compute. reflexivity.
Defined.

(** X19. The comparison of owning keys is antisymmetric when the user
    comparator is: if swapping its operands negates the user comparator,
    then whenever comparing [a] with [b] returns [c], comparing [b] with
    [a] returns [- c]; if one fails, so does the other. *)
Theorem compare_keys_antisymmetric (U : Comparator) (a b : InternalKey.t) (c : Z) :
  (forall x y, Compare U y x = - Compare U x y) ->
  (InternalKeyComparator.CompareKeys U a b = Some c ->
     InternalKeyComparator.CompareKeys U b a = Some (- c))
  /\
  (InternalKeyComparator.CompareKeys U a b = None ->
     InternalKeyComparator.CompareKeys U b a = None).
Proof.
  intros HU.
  assert (Hfwd : forall a b c,
            InternalKeyComparator.CompareKeys U a b = Some c ->
            InternalKeyComparator.CompareKeys U b a = Some (- c)).
  { clear a b c. intros a b c H. unfold InternalKeyComparator.CompareKeys in *.
    destruct (InternalKey.Encode a) as [ea|]; [|discriminate].
    destruct (InternalKey.Encode b) as [eb|]; [|discriminate].
    cbn [bind] in *. now apply Compare_antisym. }
  split; [apply Hfwd|].
  intros Hn.
  destruct (InternalKeyComparator.CompareKeys U b a) as [d|] eqn:E; [|reflexivity].
  apply Hfwd in E. rewrite E in Hn. discriminate.
Qed.

Lemma compare_keys_antisymmetric_witness :
  InternalKeyComparator.CompareKeys BytewiseComparator
    (InternalKey.make (bytes "k") 3 kTypeValue)
    (InternalKey.make (bytes "k") 7 kTypeDeletion) = Some (- -1).
Proof.
  destruct (compare_keys_antisymmetric BytewiseComparator
              (InternalKey.make (bytes "k") 7 kTypeDeletion)
              (InternalKey.make (bytes "k") 3 kTypeValue) (-1)) as [H _].
  - exact bytewise_compare_antisym.
  - apply H. vm_compute. reflexivity.
Defined.

(** ** Decoding a multi-version key as a plain key *)

(** X20. What [DecodeFromMV] is for: applied to the encoding of the
    multi-version key {u, s, t, vt}, it reports success and leaves the
    [InternalKey] that the constructor builds from u, s and t; the valid
    time is gone and nothing else changes.  No condition on the ranges of
    s, t and vt; the length of the input fits in [size_t]. *)
Theorem DecodeFromMV_of_encoded_mv_key
  (k : InternalKey.t) (q : ParsedMVInternalKey) :
  size (mv_user_key q) + 16 < 2 ^ 64 ->
  InternalKey.DecodeFromMV k (AppendMVInternalKey [] q)
  = Some (true, InternalKey.make (mv_user_key q) (mv_sequence q) (mv_type q)).
Proof.
  intros Hsz. destruct q as [u s t vt].
  cbn [mv_user_key mv_sequence mv_type] in *.
  rewrite AppendMVInternalKey_eq. cbn [app mv_user_key mv_sequence mv_type valid_time].
  pose proof (size_nonneg u) as Hu.
  rewrite InternalKey_DecodeFromMV_eq by (rewrite size_mv_key; lia).
  rewrite size_mv_key.
  destruct (Z.eqb_spec (size u + 16) 8); [lia|]. cbn [negb].
  unfold InternalKey.make. rewrite AppendInternalKey_eq.
  cbn [app user_key sequence type].
  do 3 f_equal. rewrite app_assoc. apply slice_at_prefix_eq.
  rewrite size_key. lia.
Qed.

Lemma DecodeFromMV_of_encoded_mv_key_witness :
  InternalKey.DecodeFromMV InternalKey.new
    (AppendMVInternalKey [] (mkParsedMVInternalKey (bytes "k") 10 kTypeDeletion 42))
  = Some (true, InternalKey.make (bytes "k") 10 kTypeDeletion).
Proof.
  apply (DecodeFromMV_of_encoded_mv_key InternalKey.new
           (mkParsedMVInternalKey (bytes "k") 10 kTypeDeletion 42)).
  vm_compute. reflexivity.
Defined.

(** ** What the parsers accept *)

(** X21. The parsers accept exactly the encodings of valid keys:
    [ParseInternalKey] returns true on [b] if and only if [b] is the
    encoding of some parsed key whose sequence is at most
    [kMaxSequenceNumber] and whose type is one of the two declared
    values; [ParseMVInternalKey] likewise, with a 64-bit valid time. *)
Theorem parser_accepts_exactly_encodings
  (b : Slice) (r : ParsedInternalKey) (rmv : ParsedMVInternalKey) :
  (fst (ParseInternalKey b r) = true <->
     exists p,
       0 <= sequence p <= kMaxSequenceNumber /\ IsValueType (type p)
       /\ b = AppendInternalKey [] p)
  /\
  (fst (ParseMVInternalKey b rmv) = true <->
     exists p,
       0 <= mv_sequence p <= kMaxSequenceNumber /\ IsValueType (mv_type p)
       /\ kMinValidTime <= valid_time p <= kMaxValidTime
       /\ b = AppendMVInternalKey [] p).
Proof.
  assert (Hty : forall c, (Z.land c 255 <=? kTypeValue) = true ->
                  IsValueType (Z.land c 255)).
  { intros c Hc. apply Z.leb_le in Hc.
    assert (0 <= Z.land c 255) by (apply Z.land_nonneg; lia).
    unfold IsValueType, kTypeDeletion, kTypeValue in *. lia. }
  split; split.
  - intros Hok. destruct (Z.lt_ge_cases (size b) 8) as [Hlt | Hge].
    { rewrite ParseInternalKey_short in Hok by assumption. discriminate. }
    rewrite ParseInternalKey_long in Hok by assumption. cbn [fst] in Hok.
    exists (mkParsedInternalKey (slice_at b 0 (size b - 8))
              (Z.shiftr (tag_of b) 8) (Z.land (tag_of b) 255)).
    cbn [sequence type]. split; [apply shiftr_8_bound, tag_of_range|].
    split; [now apply Hty|].
    rewrite AppendInternalKey_eq. cbn [app user_key sequence type].
    rewrite Pack_unpack by apply tag_of_range. now apply key_shape.
  - intros ([u s t] & Hs & Ht & ->). cbn [sequence type] in *.
    rewrite AppendInternalKey_eq. cbn [app user_key sequence type].
    rewrite ParseInternalKey_long
      by (rewrite size_key; pose proof (size_nonneg u); lia).
    cbn [fst]. rewrite tag_of_key, wrap64_Pack.
    rewrite Pack_type_byte by now apply IsValueType_byte.
    now apply IsValueType_le.
  - intros Hok. destruct (Z.lt_ge_cases (size b) 16) as [Hlt | Hge].
    { rewrite ParseMVInternalKey_short in Hok by assumption. discriminate. }
    rewrite ParseMVInternalKey_long in Hok by assumption. cbn [fst] in Hok.
    exists (mkParsedMVInternalKey (slice_at b 0 (size b - 16))
              (Z.shiftr (mv_tag_of b) 8) (Z.land (mv_tag_of b) 255)
              (mv_valid_time_of b)).
    cbn [mv_sequence mv_type valid_time].
    split; [apply shiftr_8_bound, DecodeFixed64_range|].
    split; [now apply Hty|]. split.
    + pose proof (DecodeFixed64_range (slice_at b (size b - 8) 8)).
      unfold mv_valid_time_of, kMinValidTime, kMaxValidTime, UINT64_MAX. lia.
    + rewrite AppendMVInternalKey_eq.
      cbn [app mv_user_key mv_sequence mv_type valid_time].
      rewrite Pack_unpack by apply DecodeFixed64_range. now apply mv_key_shape.
  - intros ([u s t vt] & Hs & Ht & Hvt & ->). cbn [mv_sequence mv_type valid_time] in *.
    rewrite AppendMVInternalKey_eq.
    cbn [app mv_user_key mv_sequence mv_type valid_time].
    rewrite ParseMVInternalKey_long
      by (rewrite size_mv_key; pose proof (size_nonneg u); lia).
    cbn [fst]. rewrite mv_tag_of_key, wrap64_Pack.
    rewrite Pack_type_byte by now apply IsValueType_byte.
    now apply IsValueType_le.
Qed.

Lemma parser_accepts_exactly_encodings_witness :
  fst (ParseInternalKey
         (AppendInternalKey [] (mkParsedInternalKey (bytes "abc") 5 kTypeValue))
         (mkParsedInternalKey [] 0 0)) = true.
Proof.
  destruct (parser_accepts_exactly_encodings
              (AppendInternalKey [] (mkParsedInternalKey (bytes "abc") 5 kTypeValue))
              (mkParsedInternalKey [] 0 0) (mkParsedMVInternalKey [] 0 0 0))
    as [[_ H] _].
  apply H. exists (mkParsedInternalKey (bytes "abc") 5 kTypeValue).
  split; [vm_compute; split; discriminate|].
  split; [right; reflexivity | reflexivity].
Defined.
